(** * Photo-Tourism AI Guide: place-list parser, discovery session and
      narration audio player

    A shallow embedding of the non-trivial logic of the repository:

    - [GeminiService]: the text-to-places parser at the end of
      [fetchNearbyHistoricalPlaces] and the error handling of
      [generateNarration] (src/services/geminiService.ts);
    - [App]: the handlers [handleDiscoverNearby], [handleLoadMore],
      [selectPlace] and [processOutput] (src/App.tsx);
    - [AudioPlayer]: the React component that decodes and plays a narration
      (components/AudioPlayer.tsx).

    JavaScript strings are sequences of UTF-16 code units, so they are
    modelled as lists of numbers; [length], [trim], [split], [includes] and
    the marker-stripping regular expression all work code unit by code unit,
    as they do in the source. *)

From Stdlib Require Import String Ascii.
From Stdlib Require Import List NArith ZArith Bool Arith Lia.
Import ListNotations.
Open Scope list_scope.

(* ------------------------------------------------------------------ *)
(** ** JavaScript string primitives used by the source *)

Module JsString.

Definition codeunit := N.
Definition jsstring := list codeunit.

(** An ASCII literal of the source, as code units. *)
Definition lit (s : string) : jsstring :=
  map N_of_ascii (list_ascii_of_string s).
Arguments lit s%_string.

(** [WhiteSpace] and [LineTerminator] of ECMAScript: what [trim] removes
    and what [\s] matches. *)
Definition isWhiteSpace (c : codeunit) : bool :=
  ((9 <=? c) && (c <=? 13)            (* TAB, LF, VT, FF, CR *)
   || (c =? 32)                       (* SPACE *)
   || (c =? 160)                      (* NO-BREAK SPACE *)
   || (c =? 5760)                     (* U+1680 *)
   || ((8192 <=? c) && (c <=? 8202))  (* U+2000 .. U+200A *)
   || (c =? 8232) || (c =? 8233)      (* LINE / PARAGRAPH SEPARATOR *)
   || (c =? 8239) || (c =? 8287)      (* U+202F, U+205F *)
   || (c =? 12288)                    (* U+3000 *)
   || (c =? 65279))%N.                (* U+FEFF *)

(** [\d] without the unicode flag: the ten ASCII digits. *)
Definition isDigit (c : codeunit) : bool := ((48 <=? c) && (c <=? 57))%N.

Fixpoint dropWhile (p : codeunit -> bool) (s : jsstring) : jsstring :=
  match s with
  | [] => []
  | c :: s' => if p c then dropWhile p s' else s
  end.

Definition trimStart (s : jsstring) : jsstring := dropWhile isWhiteSpace s.
Definition trimEnd (s : jsstring) : jsstring :=
  rev (dropWhile isWhiteSpace (rev s)).

(** [String.prototype.trim] *)
Definition trim (s : jsstring) : jsstring := trimEnd (trimStart s).

(** [String.prototype.startsWith] *)
Fixpoint startsWith (p s : jsstring) : bool :=
  match p, s with
  | [], _ => true
  | _ :: _, [] => false
  | x :: p', y :: s' => N.eqb x y && startsWith p' s'
  end.

(** [String.prototype.includes] *)
Fixpoint includes (d s : jsstring) : bool :=
  startsWith d s ||
  match s with
  | [] => false
  | _ :: s' => includes d s'
  end.

(** The scan of [String.prototype.split] for a non-empty separator:
    [cur] is the field being read (reversed) and [skip] the number of code
    units of a matched separator that are still to be passed over. *)
Fixpoint splitFrom (sep : jsstring) (skip : nat) (cur s : jsstring)
  : list jsstring :=
  match s with
  | [] => [rev cur]
  | c :: s' =>
      match skip with
      | S k => splitFrom sep k cur s'
      | O =>
          if startsWith sep s
          then rev cur :: splitFrom sep (length sep - 1) [] s'
          else splitFrom sep 0 (c :: cur) s'
      end
  end.

(** [String.prototype.split]; the empty separator splits between all code
    units. *)
Definition split (sep s : jsstring) : list jsstring :=
  match sep with
  | [] => map (fun c => [c]) s
  | _ :: _ => splitFrom sep 0 [] s
  end.

(** [a || b] on strings where [a] may be [undefined]: the empty string and
    [undefined] are falsy. *)
Definition orElse (a : option jsstring) (b : jsstring) : jsstring :=
  match a with
  | Some (c :: s) => c :: s
  | _ => b
  end.

End JsString.

Import JsString.

(* ------------------------------------------------------------------ *)
(** ** Async functions: console output and settled promises *)

Module Async.

(** The value bound by a [catch] clause.  The source only reads
    [err.message], which may be missing. *)
Record JsError := mkError { message : option jsstring }.

Inductive LogEntry :=
| ConsoleDebug (label payload : jsstring)
| ConsoleWarn (label : jsstring) (e : JsError)
| ConsoleError (label : jsstring) (e : JsError).

(** How an awaited promise settles. *)
Inductive Settled (A : Type) :=
| Fulfilled (a : A)
| Rejected (e : JsError).
Arguments Fulfilled {A} a.
Arguments Rejected {A} e.

(** An async function run to completion: the console lines it wrote and
    the way its own promise settled. *)
Definition Task (A : Type) : Type := list LogEntry * Settled A.

Definition ret {A} (a : A) : Task A := ([], Fulfilled a).

(** [await p]: resume with the value, or throw the rejection reason. *)
Definition await {A} (p : Settled A) : Task A := ([], p).

Definition bind {A B} (m : Task A) (k : A -> Task B) : Task B :=
  match m with
  | (l, Fulfilled a) => let (l', r) := k a in (l ++ l', r)
  | (l, Rejected e) => (l, Rejected e)
  end.

Definition console (entry : LogEntry) : Task unit := ([entry], Fulfilled tt).

(** [try { body } catch (e) { handler e }] *)
Definition tryCatch {A} (body : Task A) (handler : JsError -> Task A) : Task A :=
  match body with
  | (l, Fulfilled a) => (l, Fulfilled a)
  | (l, Rejected e) => let (l', r) := handler e in (l ++ l', r)
  end.

Definition settled {A} (m : Task A) : Settled A := snd m.

Module Notations.
Notation "x <- m ;; k" := (bind m (fun x => k))
  (at level 61, m at next level, right associativity).
Notation "m ;;; k" := (bind m (fun _ => k))
  (at level 61, right associativity).
End Notations.

End Async.

Import Async.
Import Async.Notations.

(* ------------------------------------------------------------------ *)
(** ** src/services/geminiService.ts *)

Module GeminiService.

(** [GroundingChunk] of the types file. *)
Record Link := mkLink { uri : option jsstring; title : option jsstring }.
Record GroundingChunk := mkChunk { web : option Link; maps : option Link }.

(** The parts of a provider response the source reads, each of them
    optional as in the optional chains [response.candidates?.[0]?. ...]. *)
Record InlineData := mkInlineData { data : option jsstring }.
Record Part := mkPart { inlineData : option InlineData }.
Record Content := mkContent { parts : option (list Part) }.
Record GroundingMetadata :=
  mkGroundingMetadata { groundingChunks : option (list GroundingChunk) }.
Record Candidate := mkCandidate {
  content : option Content;
  groundingMetadata : option GroundingMetadata
}.
Record Response := mkResponse {
  text : option jsstring;
  candidates : option (list Candidate)
}.

(** Coordinates are only passed along by the logic modelled here. *)
Record Coords := mkCoords { latitude : Z; longitude : Z }.

(** An element of the array returned by [fetchNearbyHistoricalPlaces]:
    [{ name, type, distance }]. *)
Record Place := mkPlace {
  name : jsstring;
  type : jsstring;
  distance : jsstring
}.

Definition pipe : jsstring := lit "|".
Definition dash : jsstring := lit " - ".
Definition colon : jsstring := lit ":".
Definition newline : jsstring := [10%N].

(** The predicate of the [.filter] over the trimmed lines. *)
Definition keepLine (l : jsstring) : bool :=
  (5 <? length l) && (includes pipe l || includes colon l || includes dash l).

(** The [if / else if] chain choosing the delimiter. *)
Definition splitParts (line : jsstring) : list jsstring :=
  if includes pipe line then split pipe line
  else if includes dash line then split dash line
  else if includes colon line then split colon line
  else [].

(** The character class [[\d\s\.\-\*]]. *)
Definition isMarker (c : codeunit) : bool :=
  isDigit c || isWhiteSpace c || (c =? 46)%N || (c =? 45)%N || (c =? 42)%N.

(** [s.replace(/^[\d\s\.\-\*]+/, '')] *)
Definition stripMarkers (s : jsstring) : jsstring := dropWhile isMarker s.

(** [rawName.replace(...).trim()]: the constant [name] of the source,
    before the fallback [name || "Interesting Place"]. *)
Definition cleanName (line : jsstring) : jsstring :=
  let rawName := orElse (nth_error (splitParts line) 0) [] in
  trim (stripMarkers rawName).

(** The second field [parts[1]] of a line, when there is one. *)
Definition secondField (line : jsstring) : option jsstring :=
  nth_error (splitParts line) 1.

(** The body of the [.map] over the retained lines. *)
Definition parseLine (line : jsstring) : Place :=
  let parts := splitParts line in
  let rawName := orElse (nth_error parts 0) [] in
  let name0 := trim (stripMarkers rawName) in
  let type0 := trim (orElse (nth_error parts 1) (lit "Point of Interest")) in
  let distance0 := trim (orElse (nth_error parts 2) []) in
  {| name := orElse (Some name0) (lit "Interesting Place");
     type := type0;
     distance := distance0 |}.

(** The predicate of the final [.filter]. *)
Definition keepPlace (p : Place) : bool := 2 <? length (name p).

(** From [text] to [places]: the two statements after [console.debug]. *)
Definition parsePlaces (text : jsstring) : list Place :=
  let lines := filter keepLine (map trim (split newline text)) in
  filter keepPlace (map parseLine lines).

(** What one element [l] of [text.split('\n')] contributes to [places]:
    the same pipeline run on that line alone. *)
Definition lineCandidates (l : jsstring) : list Place :=
  filter keepPlace (map parseLine (filter keepLine [trim l])).

(** [fetchNearbyHistoricalPlaces]; [provider] is the way the awaited
    [ai.models.generateContent] call settles (nothing here is in a [try],
    so a throw of [getAI()] before it rejects the promise just as a rejected
    call does, and counts as one).  The arguments only shape the prompt: [excludeNames] is quoted in it as an instruction ("Do NOT include
    these places in the list"), and the response is parsed as it comes. *)
Definition fetchNearbyHistoricalPlaces
    (location : Coords) (language : jsstring) (excludeNames : list jsstring)
    (provider : Settled Response) : Task (list Place) :=
  response <- await provider ;;
  let text0 := orElse (text response) [] in
  console (ConsoleDebug (lit "Radar Raw Output:") text0) ;;;
  ret (parsePlaces text0).

(** [response.candidates?.[0]?.groundingMetadata?.groundingChunks ?? []] *)
Definition citationsOf (response : Response) : list GroundingChunk :=
  match candidates response with
  | Some (c :: _) =>
      match groundingMetadata c with
      | Some m => match groundingChunks m with Some l => l | None => [] end
      | None => []
      end
  | _ => []
  end.

(** [fetchLandmarkDetails]; as above, [provider] is the way [getAI()] and
    the awaited call settle, neither being in a [try]. *)
Definition fetchLandmarkDetails
    (landmarkName language : jsstring) (location : option Coords)
    (provider : Settled Response) : Task (jsstring * list GroundingChunk) :=
  response <- await provider ;;
  ret (orElse (text response)
         (lit "Historical information unavailable at the moment."),
       citationsOf response).

(** [response.candidates?.[0]?.content?.parts?.[0]?.inlineData?.data] *)
Definition audioPayload (response : Response) : option jsstring :=
  match candidates response with
  | Some (c :: _) =>
      match content c with
      | Some ct =>
          match parts ct with
          | Some (p :: _) =>
              match inlineData p with
              | Some d => data d
              | None => None
              end
          | _ => None
          end
      | None => None
      end
  | _ => None
  end.

(** How [getAI()] ends: [new GoogleGenAI({ apiKey: process.env.API_KEY })]
    returns a client, or the constructor throws (as it does in a browser
    when no key is set). *)
Inductive ClientOutcome :=
| ClientReady
| ClientThrows (e : JsError).

(** [const ai = getAI()] at the head of an async function: a throw there
    rejects the function's promise. *)
Definition getAI (client : ClientOutcome) : Task unit :=
  match client with
  | ClientReady => ret tt
  | ClientThrows e => ([], Rejected e)
  end.

(** [generateNarration]: [getAI()] comes first, outside the [try]; the
    provider call sits in the [try], whose [catch] warns and returns the
    empty string. *)
Definition generateNarration
    (text0 language : jsstring) (client : ClientOutcome)
    (provider : Settled Response) : Task jsstring :=
  getAI client ;;;
  tryCatch
    (response <- await provider ;;
     ret (orElse (audioPayload response) []))
    (fun e =>
       console (ConsoleWarn (lit "Failed to generate audio") e) ;;;
       ret []).

End GeminiService.

Import GeminiService.

(* ------------------------------------------------------------------ *)
(** ** src/App.tsx *)

Module App.

Inductive OutputFormat := textOnly | audioOnly | textAndAudio.

Definition isTextOnly (f : OutputFormat) : bool :=
  match f with textOnly => true | _ => false end.

(** The [useState] cells of the component. *)
Record AppState := mkApp {
  landmarkName : jsstring;
  history : jsstring;
  audioData : option jsstring;
  citations : list GroundingChunk;
  language : jsstring;
  outputFormat : OutputFormat;
  nearbyPlaces : list Place;
  location : option Coords;
  isLoading : bool;
  isLoadingMore : bool;
  loadingStep : jsstring;
  error : jsstring
}.

Definition setLandmarkName v s :=
  mkApp v (history s) (audioData s) (citations s) (language s) (outputFormat s)
    (nearbyPlaces s) (location s) (isLoading s) (isLoadingMore s) (loadingStep s) (error s).
Definition setHistory v s :=
  mkApp (landmarkName s) v (audioData s) (citations s) (language s) (outputFormat s)
    (nearbyPlaces s) (location s) (isLoading s) (isLoadingMore s) (loadingStep s) (error s).
Definition setAudioData v s :=
  mkApp (landmarkName s) (history s) v (citations s) (language s) (outputFormat s)
    (nearbyPlaces s) (location s) (isLoading s) (isLoadingMore s) (loadingStep s) (error s).
Definition setCitations v s :=
  mkApp (landmarkName s) (history s) (audioData s) v (language s) (outputFormat s)
    (nearbyPlaces s) (location s) (isLoading s) (isLoadingMore s) (loadingStep s) (error s).
Definition setNearbyPlaces v s :=
  mkApp (landmarkName s) (history s) (audioData s) (citations s) (language s) (outputFormat s)
    v (location s) (isLoading s) (isLoadingMore s) (loadingStep s) (error s).
Definition setLocation v s :=
  mkApp (landmarkName s) (history s) (audioData s) (citations s) (language s) (outputFormat s)
    (nearbyPlaces s) v (isLoading s) (isLoadingMore s) (loadingStep s) (error s).
Definition setIsLoading v s :=
  mkApp (landmarkName s) (history s) (audioData s) (citations s) (language s) (outputFormat s)
    (nearbyPlaces s) (location s) v (isLoadingMore s) (loadingStep s) (error s).
Definition setIsLoadingMore v s :=
  mkApp (landmarkName s) (history s) (audioData s) (citations s) (language s) (outputFormat s)
    (nearbyPlaces s) (location s) (isLoading s) v (loadingStep s) (error s).
Definition setLoadingStep v s :=
  mkApp (landmarkName s) (history s) (audioData s) (citations s) (language s) (outputFormat s)
    (nearbyPlaces s) (location s) (isLoading s) (isLoadingMore s) v (error s).
Definition setError v s :=
  mkApp (landmarkName s) (history s) (audioData s) (citations s) (language s) (outputFormat s)
    (nearbyPlaces s) (location s) (isLoading s) (isLoadingMore s) (loadingStep s) v.

(** A call of the generation provider made by a handler. *)
Inductive Request :=
| NearbyRequest (location : Coords) (language : jsstring) (excludeNames : list jsstring)
| DetailsRequest (landmarkName language : jsstring) (location : option Coords)
| NarrationRequest (text0 language : jsstring).

(** What [navigator.geolocation] does for [handleDiscoverNearby]. *)
Inductive Geolocation :=
| GeoUnsupported                    (* [!navigator.geolocation] *)
| GeoPosition (coords : Coords)     (* the success callback *)
| GeoFailure (message : jsstring).  (* the error callback, [err.message] *)

(** "Seu navegador não suporta geolocalização." *)
Definition msgNoGeolocation : jsstring :=
  lit "Seu navegador n" ++ [227%N] ++ lit "o suporta geolocaliza"
  ++ [231; 227]%N ++ lit "o.".

(** "Nenhum local histórico encontrado exatamente nesta área. Tente se
    mover um pouco." *)
Definition msgNothingFound : jsstring :=
  lit "Nenhum local hist" ++ [243%N] ++ lit "rico encontrado exatamente nesta "
  ++ [225%N] ++ lit "rea. Tente se mover um pouco.".

Section Handlers.

(** The translation tables of [./translations] are kept abstract:
    [t language key vars] stands for the closure [t] of the component, which
    reads the [language] cell. *)
Variable t : jsstring -> jsstring -> list (jsstring * jsstring) -> jsstring.

(** [err.message || t('error')] *)
Definition messageOr (lang : jsstring) (e : JsError) : jsstring :=
  orElse (message e) (t lang (lit "error") []).

Definition resetState (s : AppState) : AppState :=
  setError []
    (setNearbyPlaces []
       (setCitations []
          (setAudioData None
             (setHistory [] (setLandmarkName [] s))))).

(** [handleDiscoverNearby], run to the end of the geolocation callback;
    the second component lists the provider calls it made. *)
Definition handleDiscoverNearby
    (geo : Geolocation) (provider : Settled Response) (s : AppState)
  : AppState * list Request :=
  let lang := language s in
  let s := setIsLoading true s in
  let s := setError [] s in
  let s := resetState s in
  let s := setLoadingStep (t lang (lit "findingLocation") []) s in
  match geo with
  | GeoUnsupported =>
      (setIsLoading false (setError msgNoGeolocation s), [])
  | GeoFailure msg =>
      (setIsLoading false
         (setError (t lang (lit "locationError") [] ++ lit " (" ++ msg ++ lit ")") s),
       [])
  | GeoPosition coords =>
      let s := setLocation (Some coords) s in
      let s := setLoadingStep (t lang (lit "searchingNearby") []) s in
      let s :=
        match settled (fetchNearbyHistoricalPlaces coords lang [] provider) with
        | Fulfilled places =>
            if length places =? 0
            then setError msgNothingFound s
            else setNearbyPlaces places s
        | Rejected err =>
            setError (lit "Erro ao buscar lugares: " ++ messageOr lang err) s
        end in
      (setIsLoading false s, [NearbyRequest coords lang []])
  end.

(** [handleLoadMore] up to its [await]: nothing happens without a
    [location]; otherwise the names of the places on display are
    collected for the request. *)
Definition loadMoreStart (s : AppState)
  : option (AppState * Coords * list jsstring) :=
  match location s with
  | None => None
  | Some loc =>
      let s1 := setError [] (setIsLoadingMore true s) in
      let currentNames := map name (nearbyPlaces s) in
      Some (s1, loc, currentNames)
  end.

(** [handleLoadMore] from its [await] on.  [lang] is the [language] of the
    render the handler was created in; the list is updated through
    [setNearbyPlaces(prev => [...prev, ...newPlaces])], that is, from
    the state [s] at the time of the update. *)
Definition loadMoreFinish
    (lang : jsstring) (outcome : Settled (list Place)) (s : AppState) : AppState :=
  let s :=
    match outcome with
    | Fulfilled newPlaces =>
        if length newPlaces =? 0
        then s   (* "Optional: Alert user or just do nothing" *)
        else setNearbyPlaces (nearbyPlaces s ++ newPlaces) s
    | Rejected err =>
        setError (lit "Erro ao carregar mais: " ++ messageOr lang err) s
    end in
  setIsLoadingMore false s.

(** [handleLoadMore] with nothing else happening while it awaits. *)
Definition handleLoadMore (provider : Settled Response) (s : AppState)
  : AppState * list Request :=
  match loadMoreStart s with
  | None => (s, [])
  | Some (s1, loc, currentNames) =>
      let lang := language s in
      let outcome :=
        settled (fetchNearbyHistoricalPlaces loc lang currentNames provider) in
      (loadMoreFinish lang outcome s1, [NearbyRequest loc lang currentNames])
  end.

(** [processOutput]; [details] and [narration] are the ways the two
    provider calls settle. *)
Definition processOutput
    (name0 : jsstring) (loc : option Coords)
    (details narration : Settled Response) (s : AppState)
  : AppState * list Request :=
  let lang := language s in
  let s := setLoadingStep
             (t lang (lit "fetchingHistory") [(lit "landmarkName", name0)]) s in
  let detailsReq := DetailsRequest name0 lang loc in
  match settled (fetchLandmarkDetails name0 lang loc details) with
  | Rejected err =>
      (setIsLoading false (setError (messageOr lang err) s), [detailsReq])
  | Fulfilled (text0, cits) =>
      let s := setCitations cits (setHistory text0 s) in
      if isTextOnly (outputFormat s)
      then (setIsLoading false s, [detailsReq])
      else
        let s := setLoadingStep (t lang (lit "creatingAudio") []) s in
        let reqs := [detailsReq; NarrationRequest text0 lang] in
        (* [getAI()] has just returned for [fetchLandmarkDetails], with the
           same key, so it returns for the narration as well *)
        match settled (generateNarration text0 lang ClientReady narration) with
        | Fulfilled audio => (setIsLoading false (setAudioData (Some audio) s), reqs)
        | Rejected err =>
            (setIsLoading false (setError (messageOr lang err) s), reqs)
        end
  end.

(** [selectPlace] *)
Definition selectPlace
    (name0 : jsstring) (details narration : Settled Response) (s : AppState)
  : AppState * list Request :=
  let loc := location s in
  let s := setLandmarkName name0 (setNearbyPlaces [] (setIsLoading true s)) in
  processOutput name0 loc details narration s.

End Handlers.

(** JavaScript truthiness of a [string | null] cell. *)
Definition truthy (v : option jsstring) : bool :=
  match v with Some (_ :: _) => true | _ => false end.

(** The guard of the result card:
    [landmarkName && (history || audioData) && !isLoading]. *)
Definition rendersResultCard (s : AppState) : bool :=
  truthy (Some (landmarkName s))
  && (truthy (Some (history s)) || truthy (audioData s))
  && negb (isLoading s).

(** The [AudioPlayer] element is rendered inside the result card under
    [audioData && outputFormat !== 'textOnly']. *)
Definition rendersAudioPlayer (s : AppState) : bool :=
  rendersResultCard s && truthy (audioData s) && negb (isTextOnly (outputFormat s)).

(** The red error box is rendered under [error]. *)
Definition rendersError (s : AppState) : bool := truthy (Some (error s)).

End App.

(* ------------------------------------------------------------------ *)
(** ** components/AudioPlayer.tsx *)

Module AudioPlayer.

(** [new AudioContext({ sampleRate: 24000 })] *)
Record AudioContext := mkContext { sampleRate : N }.

(** Modelled from the spec: the decoder [decode] / [decodeAudioData] of
    [../utils/audio], which turns the text-encoded payload into samples at
    24 kHz on one channel.  A decoded buffer is identified by the payload it
    was decoded from, with the rate and channel count the component passes;
    whether and when a decoding succeeds is left to the events
    [DecodeResolved] and [DecodeRejected] below. *)
Record AudioBuffer := mkBuffer {
  decodedFrom : jsstring;
  bufferRate : N;
  channels : N
}.

(** The life of an [AudioBufferSourceNode] after [start()]: it sounds
    until the buffer runs out or [stop()] is called; the browser then
    dispatches [ended] to it, once. *)
Inductive NodeState :=
| Sounding          (* started, audible *)
| Halted            (* [stop()] called, [ended] not dispatched yet *)
| Finished.         (* [ended] dispatched *)

Record SourceNode := mkNode {
  buffer : AudioBuffer;
  startOffset : N;       (* [source.start()]: no offset argument, so 0 *)
  nodeState : NodeState
}.

(** The component instance: its two [useState] cells, its three refs, and
    what surrounds it: every node it created (a ref holds the index of
    one), the payloads whose [processAudio] is suspended at its [await],
    whether it is mounted, the console, and the value of the prop
    [audioData] the effect last ran for (none before the first run). *)
Record Player := mkPlayer {
  isPlaying : bool;
  isReady : bool;
  audioContextRef : option AudioContext;
  audioSourceRef : option nat;
  audioBufferRef : option AudioBuffer;
  nodes : list SourceNode;
  decoding : list jsstring;
  mounted : bool;
  consoleLog : list LogEntry;
  audioDataProp : option jsstring
}.

Definition initial : Player :=
  mkPlayer false false None None None [] [] true [] None.

(** A state setter does nothing once the component is unmounted. *)
Definition setIsPlaying (v : bool) (p : Player) : Player :=
  if mounted p
  then mkPlayer v (isReady p) (audioContextRef p) (audioSourceRef p)
         (audioBufferRef p) (nodes p) (decoding p) (mounted p) (consoleLog p)
         (audioDataProp p)
  else p.
Definition setIsReady (v : bool) (p : Player) : Player :=
  if mounted p
  then mkPlayer (isPlaying p) v (audioContextRef p) (audioSourceRef p)
         (audioBufferRef p) (nodes p) (decoding p) (mounted p) (consoleLog p)
         (audioDataProp p)
  else p.
Definition setContextRef v (p : Player) : Player :=
  mkPlayer (isPlaying p) (isReady p) v (audioSourceRef p)
    (audioBufferRef p) (nodes p) (decoding p) (mounted p) (consoleLog p)
    (audioDataProp p).
Definition setSourceRef v (p : Player) : Player :=
  mkPlayer (isPlaying p) (isReady p) (audioContextRef p) v
    (audioBufferRef p) (nodes p) (decoding p) (mounted p) (consoleLog p)
    (audioDataProp p).
Definition setBufferRef v (p : Player) : Player :=
  mkPlayer (isPlaying p) (isReady p) (audioContextRef p) (audioSourceRef p)
    v (nodes p) (decoding p) (mounted p) (consoleLog p)
    (audioDataProp p).
Definition setNodes v (p : Player) : Player :=
  mkPlayer (isPlaying p) (isReady p) (audioContextRef p) (audioSourceRef p)
    (audioBufferRef p) v (decoding p) (mounted p) (consoleLog p)
    (audioDataProp p).
Definition setDecoding v (p : Player) : Player :=
  mkPlayer (isPlaying p) (isReady p) (audioContextRef p) (audioSourceRef p)
    (audioBufferRef p) (nodes p) v (mounted p) (consoleLog p)
    (audioDataProp p).
Definition setMounted v (p : Player) : Player :=
  mkPlayer (isPlaying p) (isReady p) (audioContextRef p) (audioSourceRef p)
    (audioBufferRef p) (nodes p) (decoding p) v (consoleLog p)
    (audioDataProp p).
Definition logError (e : LogEntry) (p : Player) : Player :=
  mkPlayer (isPlaying p) (isReady p) (audioContextRef p) (audioSourceRef p)
    (audioBufferRef p) (nodes p) (decoding p) (mounted p) (consoleLog p ++ [e])
    (audioDataProp p).

Definition setAudioDataProp v (p : Player) : Player :=
  mkPlayer (isPlaying p) (isReady p) (audioContextRef p) (audioSourceRef p)
    (audioBufferRef p) (nodes p) (decoding p) (mounted p) (consoleLog p) v.

(** Two values of the prop are the same dependency when they are the same
    string. *)
Fixpoint sameString (a b : jsstring) : bool :=
  match a, b with
  | [], [] => true
  | x :: a', y :: b' => N.eqb x y && sameString a' b'
  | _, _ => false
  end.

Definition sameProp (shown : option jsstring) (d : jsstring) : bool :=
  match shown with
  | Some d0 => sameString d0 d
  | None => false
  end.

Fixpoint updateNth {A} (n : nat) (f : A -> A) (l : list A) {struct l} : list A :=
  match l, n with
  | [], _ => []
  | x :: l', O => f x :: l'
  | x :: l', S n' => x :: updateNth n' f l'
  end.

Fixpoint removeNth {A} (n : nat) (l : list A) {struct l} : list A :=
  match l, n with
  | [], _ => []
  | _ :: l', O => l'
  | x :: l', S n' => x :: removeNth n' l'
  end.

(** [node.stop()] on a started node: a sounding node falls silent. *)
Definition halt (n : SourceNode) : SourceNode :=
  match nodeState n with
  | Sounding => mkNode (buffer n) (startOffset n) Halted
  | _ => n
  end.

Definition stopNode (h : nat) (p : Player) : Player :=
  setNodes (updateNth h halt (nodes p)) p.

(** The cleanup function returned by the effect. *)
Definition cleanup (p : Player) : Player :=
  match audioSourceRef p with
  | Some h => stopNode h p
  | None => p
  end.

(** The effect body for the prop [audioData]: create the context once,
    then [processAudio] up to its [await]. *)
Definition effect (audioData : jsstring) (p : Player) : Player :=
  let p :=
    match audioContextRef p with
    | None => setContextRef (Some (mkContext 24000)) p
    | Some _ => p
    end in
  match audioData, audioContextRef p with
  | _ :: _, Some _ => setDecoding (decoding p ++ [audioData]) (setIsReady false p)
  | _, _ => p
  end.

(** [processAudio] resumed with the decoded buffer of its payload. *)
Definition decodeResolved (i : nat) (p : Player) : Player :=
  match nth_error (decoding p) i with
  | Some payload =>
      let p := setDecoding (removeNth i (decoding p)) p in
      let p := setBufferRef (Some (mkBuffer payload 24000 1)) p in
      setIsReady true p
  | None => p
  end.

(** [processAudio] resumed in its [catch] clause. *)
Definition decodeRejected (i : nat) (e : JsError) (p : Player) : Player :=
  match nth_error (decoding p) i with
  | Some _ =>
      let p := setDecoding (removeNth i (decoding p)) p in
      logError (ConsoleError (lit "Failed to decode audio data") e) p
  | None => p
  end.

(** [handlePlayPause] *)
Definition handlePlayPause (p : Player) : Player :=
  match isReady p, audioContextRef p, audioBufferRef p with
  | true, Some _, Some buf =>
      if isPlaying p then
        let p :=
          match audioSourceRef p with
          | Some h => setSourceRef None (stopNode h p)
          | None => p
          end in
        setIsPlaying false p
      else
        let source := length (nodes p) in
        let p := setNodes (nodes p ++ [mkNode buf 0 Sounding]) p in
        let p := setSourceRef (Some source) p in
        setIsPlaying true p
  | _, _, _ => p
  end.

(** The [onended] callback every node is given. *)
Definition onended (p : Player) : Player :=
  setSourceRef None (setIsPlaying false p).

(** [ended] is dispatched to node [h]: it had run to the end of its buffer
    ([Sounding]) or had been stopped ([Halted]). *)
Definition endedEvent (h : nat) (p : Player) : Player :=
  match nth_error (nodes p) h with
  | Some n =>
      match nodeState n with
      | Finished => p
      | _ =>
          onended
            (setNodes
               (updateNth h (fun n => mkNode (buffer n) (startOffset n) Finished)
                  (nodes p)) p)
      end
  | None => p
  end.

Inductive Event :=
| Submit (audioData : jsstring)   (* a render with this value of the prop *)
| DecodeResolved (i : nat)        (* the [i]-th suspended [processAudio] resumes *)
| DecodeRejected (i : nat) (e : JsError)
| Click                           (* the button: [handlePlayPause] *)
| Ended (h : nat)                 (* [ended] reaches node [h] *)
| Unmount.                        (* teardown: cleanup *)

(** The effect has the dependencies [[audioData]]: a render with the value
    it last ran for runs nothing; any other value runs the cleanup of the
    previous run, then the effect. *)
Definition submit (d : jsstring) (p : Player) : Player :=
  if sameProp (audioDataProp p) d then p
  else setAudioDataProp (Some d) (effect d (cleanup p)).

Definition step (p : Player) (ev : Event) : Player :=
  match ev with
  | Submit d => if mounted p then submit d p else p
  | DecodeResolved i => decodeResolved i p
  | DecodeRejected i e => decodeRejected i e p
  | Click => if mounted p then handlePlayPause p else p
  | Ended h => endedEvent h p
  | Unmount => if mounted p then setMounted false (cleanup p) else p
  end.

Definition run (trace : list Event) (p : Player) : Player :=
  fold_left step trace p.

Definition isSounding (n : SourceNode) : bool :=
  match nodeState n with Sounding => true | _ => false end.

(** The phases of the narration pipeline, read off what is going on rather
    than off the two flags: decoding while a submitted payload is being
    decoded, playing while a node sounds, ready when the component says so
    and neither is the case, empty otherwise. *)
Inductive Phase := Empty | Decoding | Ready | Playing.

Definition phase (p : Player) : Phase :=
  match decoding p with
  | _ :: _ => Decoding
  | [] =>
      if existsb isSounding (nodes p) then Playing
      else if isReady p then Ready
      else Empty
  end.

(** The playback handles that are active: the nodes that sound. *)
Definition activeHandles (p : Player) : list SourceNode :=
  filter isSounding (nodes p).

(** What holds of the component in every state it can reach: it is ready
    only with a context and a decoded buffer, decodes only with a context,
    and every node it created was started at offset 0. *)
Definition wellFormed (p : Player) : Prop :=
  (isReady p = true -> audioContextRef p <> None /\ audioBufferRef p <> None)
  /\ (decoding p <> [] -> audioContextRef p <> None)
  /\ Forall (fun n => startOffset n = 0%N) (nodes p).

(** No node of the list sounds. *)
Definition quiet (ns : list SourceNode) : Prop :=
  Forall (fun n => isSounding n = false) ns.

(** The component keeps track of its handle: a node that sounds is the one
    [audioSourceRef] holds, and nothing sounds while the component shows
    "play" or is unmounted. *)
Definition tracked (p : Player) : Prop :=
  (forall i n, nth_error (nodes p) i = Some n -> isSounding n = true ->
               audioSourceRef p = Some i)
  /\ (mounted p = false \/ isPlaying p = false -> quiet (nodes p)).

(** [ended] reaches node [h] in good time when no later node has replaced it
    in [audioSourceRef]. *)
Definition timely (p : Player) (ev : Event) : Prop :=
  match ev with
  | Ended h => audioSourceRef p = None \/ audioSourceRef p = Some h
  | _ => True
  end.

(** A trace all of whose [ended] events are timely. *)
Fixpoint orderly (p : Player) (trace : list Event) : Prop :=
  match trace with
  | [] => True
  | ev :: rest => timely p ev /\ orderly (step p ev) rest
  end.

(** A payload, and the trace in which [ended] of a stopped node arrives
    after the next play: submit, decode, play, stop, play, [ended] of the
    first node, play. *)
Definition clip : jsstring := lit "UklGRiQAAABXQVZF".
Definition otherClip : jsstring := lit "AAECAwQFBgcICQoL".

Definition lateEndedTrace : list Event :=
  [Submit clip; DecodeResolved 0; Click; Click; Click; Ended 0; Click].

(** The trace in which a second payload is submitted while the first is
    still being decoded, and the first decoding completes first. *)
Definition lateDecodeTrace : list Event :=
  [Submit clip; Submit otherClip; DecodeResolved 0; Click].

(** The two flags agree with what is going on: the component decodes one
    payload at a time and is not ready meanwhile, and while mounted it shows
    "pause" only when it is ready and a node sounds. *)
Definition coherent (p : Player) : Prop :=
  length (decoding p) <= 1
  /\ (decoding p <> [] -> isReady p = false)
  /\ (mounted p = true -> isPlaying p = true ->
      isReady p = true /\ existsb isSounding (nodes p) = true).

(** An event comes at a calm moment: [ended] in good time, and a render
    with a new value of the prop only while the component neither decodes
    nor shows "pause". *)
Definition calm (p : Player) (ev : Event) : Prop :=
  match ev with
  | Submit d =>
      audioDataProp p = Some d \/ (decoding p = [] /\ isPlaying p = false)
  | Ended h => audioSourceRef p = None \/ audioSourceRef p = Some h
  | _ => True
  end.

(** A trace all of whose events come at a calm moment. *)
Fixpoint calmly (p : Player) (trace : list Event) : Prop :=
  match trace with
  | [] => True
  | ev :: rest => calm p ev /\ calmly (step p ev) rest
  end.

(** The traces after which the flags disagree with what is going on: the
    second payload is still being decoded when the decoding of the first
    completes; a payload is replaced while its node sounds and the new one
    is decoded before [ended] reaches the stopped node; [ended] of a stopped
    node arrives after the next node was started. *)
Definition staleDecodeTrace : list Event :=
  [Submit clip; Submit otherClip; DecodeResolved 0].

Definition pendingEndedTrace : list Event :=
  [Submit clip; DecodeResolved 0; Click; Submit otherClip; DecodeResolved 0].

Definition forgottenNodeTrace : list Event :=
  [Submit clip; DecodeResolved 0; Click; Click; Click; Ended 0].

(** A node as a listener hears it: the payload it plays and its state. *)
Definition audible (n : SourceNode) : jsstring * NodeState :=
  (decodedFrom (buffer n), nodeState n).

End AudioPlayer.

Import App.

(* ------------------------------------------------------------------ *)
(** ** The discovery session seen through the component's state *)

Module Session.

(** [String.prototype.toLowerCase], exact on Basic Latin and Latin-1 and
    the identity on the other code units. *)
Definition lowerUnit (c : codeunit) : codeunit :=
  if ((65 <=? c) && (c <=? 90))%N then (c + 32)%N
  else if ((192 <=? c) && (c <=? 222) && negb (c =? 215))%N then (c + 32)%N
  else c.

Definition toLowerCase (s : jsstring) : jsstring := map lowerUnit s.

(** The identity of a place for deduplication: its name, trimmed and
    compared without regard to case.  The source has no such function; it
    is the notion the no-duplicate property is stated with. *)
Definition normalizedName (p : Place) : jsstring :=
  toLowerCase (trim (name p)).

(** No two entries share a normalized name. *)
Definition distinctNames (places : list Place) : Prop :=
  NoDup (map normalizedName places).

(** The candidates a load-more obtains: the provider's text, parsed, when
    the handler has a location and the provider call is fulfilled. *)
Definition loadMoreCandidates (provider : Settled Response) (s : AppState)
  : list Place :=
  match location s, provider with
  | Some _, Fulfilled response => parsePlaces (orElse (text response) [])
  | _, _ => []
  end.

(** A query "parses to zero candidates". *)
Definition parsesToNothing (provider : Settled Response) : Prop :=
  exists response,
    provider = Fulfilled response
    /\ parsePlaces (orElse (text response) []) = [].

(** The lookup [t] falls back to when a key has no translation: the key
    itself. *)
Definition untranslated
  : jsstring -> jsstring -> list (jsstring * jsstring) -> jsstring :=
  fun _ key _ => key.

(** A provider response that carries only text. *)
Definition textResponse (s : jsstring) : Settled Response :=
  Fulfilled (mkResponse (Some s) None).

(** A session showing one place, "Statue". *)
Definition statueSession : AppState :=
  mkApp [] [] None [] (lit "English") textAndAudio
    [ mkPlace (lit "Statue") (lit "Monument") (lit "50m") ]
    (Some (mkCoords 40712800 (-74006000))) false false [] [].

(** The client constructor throws, as it does in a browser when
    [process.env.API_KEY] is not set. *)
Definition missingKey : JsError :=
  mkError (Some (lit "An API Key must be set when running in a browser")).

End Session.

Import Session.

(* ------------------------------------------------------------------ *)
(** ** The rest of src/services/geminiService.ts *)

Module GeminiParts.

(** [{ inlineData: { data, mimeType } }] as built by
    [fileToGenerativePart]; [data] is [undefined] when the split has no
    second element. *)
Record GenerativePart := mkGenerativePart {
  partData : option jsstring;
  partMimeType : jsstring
}.

Definition comma : jsstring := lit ",".

(** [fileToGenerativePart]: [data: base64.split(',')[1]]. *)
Definition fileToGenerativePart (base64 mimeType : jsstring) : GenerativePart :=
  {| partData := nth_error (split comma base64) 1;
     partMimeType := mimeType |}.

(** The line shape the prompt of [fetchNearbyHistoricalPlaces] asks the
    provider for: "Required format per line: NAME | TYPE | DISTANCE". *)
Definition formatLine (p : Place) : jsstring :=
  name p ++ lit " | " ++ type p ++ lit " | " ++ distance p.

(** A line of a numbered or bulleted list: a run of list markers, then the
    required shape. *)
Definition formatItem (item : jsstring * Place) : jsstring :=
  fst item ++ formatLine (snd item).

(** Lines joined by line breaks. *)
Fixpoint joinLines (ls : list jsstring) : jsstring :=
  match ls with
  | [] => []
  | [l] => l
  | l :: rest => l ++ newline ++ joinLines rest
  end.

(** A field as the provider is asked to write it: not empty, without white
    space around it, and free of the delimiter and of line breaks. *)
Definition tidy (s : jsstring) : Prop := s <> [] /\ trim s = s.
Definition plain (s : jsstring) : Prop :=
  includes pipe s = false /\ includes newline s = false.

(** A place that survives the round trip through text: a name of more than
    two code units that does not begin with a list marker, a category, and
    a distance that may be missing. *)
Definition presentable (p : Place) : Prop :=
  tidy (name p) /\ plain (name p) /\ 2 < length (name p)
  /\ stripMarkers (name p) = name p
  /\ tidy (type p) /\ plain (type p)
  /\ (distance p = [] \/ tidy (distance p)) /\ plain (distance p).

(** The third field of [formatLine p] once the line was trimmed: a missing
    distance leaves nothing after the second delimiter. *)
Definition paddedDistance (d : jsstring) : jsstring :=
  match d with
  | [] => []
  | _ :: _ => 32%N :: d
  end.

(** A run of list markers on one line: "1. ", "- ", "* ", ... *)
Definition markerRun (m : jsstring) : Prop :=
  Forall (fun c => isMarker c = true) m /\ includes newline m = false.

End GeminiParts.

Import GeminiParts.

(* ------------------------------------------------------------------ *)
(** ** The rest of src/App.tsx *)

Module AppRest.

(** What [analyzeImage] resolves to: [{ landmarkName, confidenceScore }];
    the score is not read by the component. *)
Record Analysis := mkAnalysis {
  analysedLandmark : jsstring;
  confidenceScore : Z
}.

Section ImageUpload.

Variable t : jsstring -> jsstring -> list (jsstring * jsstring) -> jsstring.

(** [handleImageUpload].  [geo] is what the geolocation lookup does (here a
    failure only warns and resolves to [undefined]); [analysis] is the way
    the awaited [analyzeImage] call settles; [details] and [narration] are
    passed on to [processOutput].  The second component lists the provider
    calls made after the analysis. *)
Definition handleImageUpload
    (base64Image : jsstring) (geo : Geolocation)
    (analysis : Settled Analysis) (details narration : Settled Response)
    (s : AppState) : AppState * list Request :=
  let lang := language s in
  let location0 := location s in
  let s := setIsLoading true (resetState s) in
  let s := setLoadingStep (t lang (lit "findingLocation") []) s in
  let currentLoc :=
    match geo with
    | GeoPosition coords => Some coords
    | _ => None
    end in
  let s :=
    match currentLoc with
    | Some coords => setLocation (Some coords) s
    | None => s
    end in
  let s := setLoadingStep (t lang (lit "identifyingLandmark") []) s in
  match analysis with
  | Fulfilled a =>
      let name0 := analysedLandmark a in
      let s := setLandmarkName name0 s in
      let loc := match currentLoc with Some c => Some c | None => location0 end in
      processOutput t name0 loc details narration s
  | Rejected err =>
      (setIsLoading false (setError (messageOr t lang err) s), [])
  end.

End ImageUpload.

(** [c.maps?.uri], as a truthy value. *)
Definition mapsUri (c : GroundingChunk) : option jsstring :=
  match maps c with
  | Some link =>
      match uri link with
      | Some (x :: u) => Some (x :: u)
      | _ => None
      end
  | None => None
  end.

Definition hasMapsUri (c : GroundingChunk) : bool :=
  match mapsUri c with Some _ => true | None => false end.

(** [realPhotosLink]: [citations.find(c => c.maps?.uri)], then
    [mapsChunk?.maps?.uri || null]. *)
Definition realPhotosLink (cits : list GroundingChunk) : option jsstring :=
  match find hasMapsUri cits with
  | Some c => mapsUri c
  | None => None
  end.

(** [hasResults], which switches the page to its two-column layout. *)
Definition hasResults (s : AppState) : bool :=
  isLoading s
  || truthy (Some (error s))
  || (0 <? length (nearbyPlaces s))
  || (truthy (Some (landmarkName s))
      && (truthy (Some (history s)) || truthy (audioData s))).

(** The spinner panel is rendered under [isLoading]. *)
Definition rendersSpinner (s : AppState) : bool := isLoading s.

(** The list of places is rendered under
    [nearbyPlaces.length > 0 && !isLoading]. *)
Definition rendersPlaces (s : AppState) : bool :=
  (0 <? length (nearbyPlaces s)) && negb (isLoading s).

End AppRest.

Import AppRest.

(* ------------------------------------------------------------------ *)
(** ** Traces of the narration player *)

Module PlayerTraces.
Import AudioPlayer.

(** The payloads a trace submits. *)
Fixpoint submitted (trace : list Event) : list jsstring :=
  match trace with
  | [] => []
  | Submit d :: rest => d :: submitted rest
  | _ :: rest => submitted rest
  end.

(** A buffer the component itself can have decoded: from a payload of the
    trace, not empty, at 24 kHz on one channel. *)
Definition decodedFromTrace (trace : list Event) (b : AudioBuffer) : Prop :=
  In (decodedFrom b) (submitted trace)
  /\ decodedFrom b <> []
  /\ bufferRate b = 24000%N /\ channels b = 1%N.

(** What the component holds comes from what it was given: the payloads in
    decoding, the decoded buffer and the buffers of the nodes. *)
Definition provenance (trace : list Event) (p : Player) : Prop :=
  Forall (fun d => In d (submitted trace) /\ d <> []) (decoding p)
  /\ (forall b, audioBufferRef p = Some b -> decodedFromTrace trace b)
  /\ Forall (fun n => decodedFromTrace trace (buffer n)) (nodes p).

End PlayerTraces.

(* ================================================================== *)
(** * Properties *)

(* ------------------------------------------------------------------ *)
(** ** String primitives *)

Section StringFacts.

Example trim_removes_js_whitespace :
  trim ([9; 32; 160; 65279]%N ++ lit "Old  Bridge" ++ [13; 10; 8232; 12288]%N)
  = lit "Old  Bridge".
Proof. reflexivity. Qed.

(** U+200B (zero width space) is not white space for [trim]. *)
Example trim_keeps_zero_width_space : trim [8203%N; 65%N] = [8203%N; 65%N].
Proof. reflexivity. Qed.

Example split_examples :
  split (lit "|") (lit "a|b||c") = [lit "a"; lit "b"; []; lit "c"]
  /\ split (lit "|") (lit "a|") = [lit "a"; []]
  /\ split (lit " - ") (lit "a - - b - c") = [lit "a"; lit "- b"; lit "c"]
  /\ split (lit ":") (lit "no colon") = [lit "no colon"]
  /\ split [10%N] [] = [[]].
Proof. repeat split. Qed.

(** Splitting at a single code unit distributes over a text cut at that
    code unit. *)
Lemma splitFrom_unit_app c cur a b :
  splitFrom [c] 0 cur (a ++ c :: b)
  = splitFrom [c] 0 cur a ++ splitFrom [c] 0 [] b.
Proof.
  revert cur. induction a as [|x a IH]; intros cur.
  - simpl. now rewrite N.eqb_refl.
  - simpl. destruct (c =? x)%N; simpl; now rewrite IH.
Qed.

Lemma split_unit_app c a b :
  split [c] (a ++ [c] ++ b) = split [c] a ++ split [c] b.
Proof. apply splitFrom_unit_app. Qed.

Lemma includes_unit_cons c x s :
  includes [c] (x :: s) = (c =? x)%N || includes [c] s.
Proof.
  change (includes [c] (x :: s)) with (startsWith [c] (x :: s) || includes [c] s).
  simpl. now rewrite andb_true_r.
Qed.

(** A text without the separator is one field. *)
Lemma splitFrom_unit_absent c cur s :
  includes [c] s = false -> splitFrom [c] 0 cur s = [rev cur ++ s].
Proof.
  revert cur. induction s as [|x s IH]; intros cur H.
  - simpl. now rewrite app_nil_r.
  - rewrite includes_unit_cons in H. apply orb_false_iff in H as [Hx Hs].
    simpl. rewrite Hx. simpl. rewrite (IH _ Hs). simpl.
    now rewrite <- app_assoc.
Qed.

Lemma split_unit_absent c s : includes [c] s = false -> split [c] s = [s].
Proof. intros H. unfold split. now rewrite splitFrom_unit_absent. Qed.

Lemma includes_cons d c s :
  includes d s = true -> includes d (c :: s) = true.
Proof.
  intros H. change (includes d (c :: s)) with (startsWith d (c :: s) || includes d s).
  rewrite H. apply orb_true_r.
Qed.

Lemma includes_dropWhile p d s :
  includes d (dropWhile p s) = true -> includes d s = true.
Proof.
  induction s as [|c s IH]; simpl dropWhile; [easy|].
  destruct (p c); [|easy].
  intros H. apply includes_cons, IH, H.
Qed.

Lemma startsWith_app d s u :
  startsWith d s = true -> startsWith d (s ++ u) = true.
Proof.
  revert s. induction d as [|x d IH]; intros [|y s]; simpl; try easy.
  intros H. apply andb_true_iff in H as [-> H]. simpl. now apply IH.
Qed.

Lemma includes_app_l d s u :
  includes d s = true -> includes d (s ++ u) = true.
Proof.
  induction s as [|c s IH].
  - destruct d; simpl; [|discriminate]. intros _. now destruct u.
  - intros H. change (startsWith d (c :: s) || includes d s = true) in H.
    change (startsWith d (c :: s ++ u) || includes d (s ++ u) = true).
    apply orb_true_iff in H as [H|H].
    + change (c :: s ++ u) with ((c :: s) ++ u).
      now rewrite (startsWith_app _ _ _ H).
    + rewrite (IH H). apply orb_true_r.
Qed.

(** [dropWhile] removes a prefix. *)
Lemma dropWhile_suffix p s : exists w, s = w ++ dropWhile p s.
Proof.
  induction s as [|c s [w IH]]; simpl.
  - now exists [].
  - destruct (p c).
    + exists (c :: w). simpl. now f_equal.
    + now exists [].
Qed.

Lemma includes_trimEnd d s :
  includes d (trimEnd s) = true -> includes d s = true.
Proof.
  unfold trimEnd. destruct (dropWhile_suffix isWhiteSpace (rev s)) as [w Hw].
  intros H.
  assert (Hs : s = rev (dropWhile isWhiteSpace (rev s)) ++ rev w).
  { rewrite <- rev_app_distr, <- Hw. symmetry. apply rev_involutive. }
  rewrite Hs. now apply includes_app_l.
Qed.

(** A delimiter found in the trimmed line is in the line. *)
Lemma includes_trim d s :
  includes d (trim s) = true -> includes d s = true.
Proof.
  unfold trim, trimStart. intros H.
  apply includes_dropWhile with (p := isWhiteSpace).
  now apply includes_trimEnd.
Qed.

Lemma not_includes_trim d s :
  includes d s = false -> includes d (trim s) = false.
Proof.
  intros H. destruct (includes d (trim s)) eqn:E; [|reflexivity].
  apply includes_trim in E. congruence.
Qed.

End StringFacts.

(* ------------------------------------------------------------------ *)
(** ** The place-list parser *)

Section ParserFacts.

Lemma lineCandidates_eq l :
  lineCandidates l =
    if keepLine (trim l)
    then (if keepPlace (parseLine (trim l)) then [parseLine (trim l)] else [])
    else [].
Proof.
  unfold lineCandidates. simpl. destruct (keepLine (trim l)); reflexivity.
Qed.

Lemma pipeline_flat_map (ls : list jsstring) :
  filter keepPlace (map parseLine (filter keepLine (map trim ls)))
  = flat_map lineCandidates ls.
Proof.
  induction ls as [|l ls IH]; [reflexivity|].
  simpl flat_map. rewrite lineCandidates_eq, <- IH. simpl.
  destruct (keepLine (trim l)); simpl; [|reflexivity].
  destruct (keepPlace (parseLine (trim l))); reflexivity.
Qed.

(** The candidates of a text are what its lines contribute, in line
    order. *)
Lemma parsePlaces_by_line text :
  parsePlaces text = flat_map lineCandidates (split newline text).
Proof. unfold parsePlaces. apply pipeline_flat_map. Qed.

(** The candidates of two texts joined by a line break are those of the one
    followed by those of the other. *)
Lemma parsePlaces_app a b :
  parsePlaces (a ++ newline ++ b) = parsePlaces a ++ parsePlaces b.
Proof.
  rewrite !parsePlaces_by_line.
  pose proof (split_unit_app 10%N a b) as E.
  change (split newline (a ++ newline ++ b)
          = split newline a ++ split newline b) in E.
  now rewrite E, flat_map_app.
Qed.

Lemma parsePlaces_one_line l :
  includes newline l = false -> parsePlaces l = lineCandidates l.
Proof.
  intros H. rewrite parsePlaces_by_line.
  pose proof (split_unit_absent 10%N l H) as E.
  change (split newline l = [l]) in E. rewrite E. simpl. apply app_nil_r.
Qed.

Lemma short_line_dropped l :
  length (trim l) <= 5 -> lineCandidates l = [].
Proof.
  intros H. rewrite lineCandidates_eq. unfold keepLine.
  replace (5 <? length (trim l)) with false; [reflexivity|].
  symmetry. apply Nat.ltb_ge. exact H.
Qed.

Lemma undelimited_trimmed_line_dropped l :
  includes pipe (trim l) = false ->
  includes dash (trim l) = false ->
  includes colon (trim l) = false ->
  lineCandidates l = [].
Proof.
  intros Hp Hd Hc. rewrite lineCandidates_eq. unfold keepLine.
  rewrite Hp, Hd, Hc. now rewrite andb_false_r.
Qed.

Lemma undelimited_line_dropped l :
  includes pipe l = false ->
  includes dash l = false ->
  includes colon l = false ->
  lineCandidates l = [].
Proof.
  intros Hp Hd Hc.
  apply undelimited_trimmed_line_dropped; now apply not_includes_trim.
Qed.

Lemma name_parseLine line :
  name (parseLine line) = orElse (Some (cleanName line)) (lit "Interesting Place").
Proof. reflexivity. Qed.

Lemma type_parseLine line :
  type (parseLine line)
  = trim (orElse (secondField line) (lit "Point of Interest")).
Proof. reflexivity. Qed.

Lemma candidate_name_long text p :
  In p (parsePlaces text) -> 2 < length (name p).
Proof.
  unfold parsePlaces. intros H. apply filter_In in H as [_ H].
  unfold keepPlace in H. now apply Nat.ltb_lt in H.
Qed.

Lemma short_name_dropped l :
  1 <= length (cleanName (trim l)) <= 2 -> lineCandidates l = [].
Proof.
  intros [H1 H2]. rewrite lineCandidates_eq.
  destruct (keepLine (trim l)); [|reflexivity].
  unfold keepPlace. rewrite name_parseLine.
  destruct (cleanName (trim l)) as [|c n] eqn:E; simpl in H1; [lia|].
  simpl orElse.
  replace (2 <? length (c :: n)) with false; [reflexivity|].
  symmetry. apply Nat.ltb_ge. exact H2.
Qed.

Lemma empty_name_replaced l :
  keepLine (trim l) = true ->
  cleanName (trim l) = [] ->
  lineCandidates l = [parseLine (trim l)]
  /\ name (parseLine (trim l)) = lit "Interesting Place".
Proof.
  intros Hk Hn. rewrite lineCandidates_eq, Hk.
  unfold keepPlace. rewrite name_parseLine, Hn. split; reflexivity.
Qed.

(** The default category is used when the second field is missing or is
    the empty string. *)
Lemma category_default line :
  secondField line = None \/ secondField line = Some [] ->
  type (parseLine line) = lit "Point of Interest".
Proof.
  intros [H|H]; rewrite type_parseLine, H; vm_compute; reflexivity.
Qed.

End ParserFacts.

(** C7.  The parser maps the line "Palace of Culture | Cultural Center |
    420m" to exactly one place with name "Palace of Culture", type "Cultural
    Center" and distance "420m", and the line "1. Old Bridge - Monument -
    120m" to exactly one place with name "Old Bridge" (the list marker is
    stripped from the name only), type "Monument" and distance "120m". *)
Theorem parse_documented_examples :
  parsePlaces (lit "Palace of Culture | Cultural Center | 420m")
  = [ mkPlace (lit "Palace of Culture") (lit "Cultural Center") (lit "420m") ]
  /\ parsePlaces (lit "1. Old Bridge - Monument - 120m")
     = [ mkPlace (lit "Old Bridge") (lit "Monument") (lit "120m") ].
Proof. split; vm_compute; reflexivity. Qed.

(** C8.  Parsing is a total, deterministic function from strings to lists of
    places: every text has exactly one result; the empty text and "hi" give
    the empty list; the result is the concatenation, in line order, of what
    the lines of the text contribute; a line whose trimmed length is at most
    5, or that contains none of "|", " - ", ":", contributes nothing; and a
    text with such a line between two others parses as the two others. *)
Theorem parse_total_and_line_filter :
  (forall text, exists places,
      parsePlaces text = places
      /\ forall places', parsePlaces text = places' -> places' = places)
  /\ parsePlaces (lit "") = []
  /\ parsePlaces (lit "hi") = []
  /\ (forall text, parsePlaces text = flat_map lineCandidates (split newline text))
  /\ (forall l, length (trim l) <= 5 -> lineCandidates l = [])
  /\ (forall l,
        includes pipe l = false -> includes dash l = false ->
        includes colon l = false -> lineCandidates l = [])
  /\ (forall before l after,
        includes newline l = false ->
        lineCandidates l = [] ->
        parsePlaces (before ++ newline ++ l ++ newline ++ after)
        = parsePlaces before ++ parsePlaces after).
Proof.
  split; [|split; [|split; [|split; [|split; [|split]]]]].
  - intros text. exists (parsePlaces text). split; [reflexivity|].
    intros places' H. now symmetry.
  - reflexivity.
  - reflexivity.
  - exact parsePlaces_by_line.
  - exact short_line_dropped.
  - exact undelimited_line_dropped.
  - intros before l after Hl Hnone.
    rewrite !parsePlaces_app, (parsePlaces_one_line l Hl), Hnone. reflexivity.
Qed.

(** The line filter at work: "a | b" is too short, "hello world" has no
    delimiter. *)
Lemma parse_total_and_line_filter_witness :
  lineCandidates (lit "a | b") = [] /\ lineCandidates (lit "hello world") = [].
Proof.
  destruct parse_total_and_line_filter as (_ & _ & _ & _ & Hshort & Hnone & _).
  split.
  - apply Hshort. vm_compute. lia.
  - apply Hnone; vm_compute; reflexivity.
Defined.

(** C2, at the input where the source departs from it.  The second field of
    "Old Bridge | | 120m" is a single space: it is not empty, so the
    fallback ["Point of Interest"] is not taken, and trimming then leaves
    the empty category. *)
Theorem blank_category_stays_empty :
  keepLine (lit "Old Bridge | | 120m") = true
  /\ secondField (lit "Old Bridge | | 120m") = Some (lit " ")
  /\ parsePlaces (lit "Old Bridge | | 120m")
     = [ mkPlace (lit "Old Bridge") [] (lit "120m") ].
Proof. repeat split; vm_compute; reflexivity. Qed.

(** C3 as stated fails: the cleaned name of "1. | Monument | 50m" is empty
    (length 0), and the parser still emits a place for that line. *)
Lemma empty_name_line_is_emitted :
  length (cleanName (trim (lit "1. | Monument | 50m"))) <= 2
  /\ parsePlaces (lit "1. | Monument | 50m")
     = [ mkPlace (lit "Interesting Place") (lit "Monument") (lit "50m") ].
Proof. split; vm_compute; [lia | reflexivity]. Qed.

(** C3, amended.  A line whose cleaned name has 1 or 2 code units
    contributes no place; a retained line whose cleaned name is empty
    contributes one place, named "Interesting Place"; so every place in the
    parser's output has a name longer than 2. *)
Theorem short_names_dropped_empty_names_replaced :
  (forall l, 1 <= length (cleanName (trim l)) <= 2 -> lineCandidates l = [])
  /\ (forall l,
        keepLine (trim l) = true -> cleanName (trim l) = [] ->
        lineCandidates l = [parseLine (trim l)]
        /\ name (parseLine (trim l)) = lit "Interesting Place")
  /\ (forall text p, In p (parsePlaces text) -> 2 < length (name p)).
Proof.
  split; [|split].
  - exact short_name_dropped.
  - exact empty_name_replaced.
  - exact candidate_name_long.
Qed.

Lemma short_names_dropped_empty_names_replaced_witness :
  lineCandidates (lit "ab | Monument | 50m") = []
  /\ name (parseLine (trim (lit "1. | Monument | 50m"))) = lit "Interesting Place".
Proof.
  destruct short_names_dropped_empty_names_replaced as (Hshort & Hempty & _).
  split.
  - apply Hshort. vm_compute. lia.
  - apply Hempty; vm_compute; reflexivity.
Defined.

(* ------------------------------------------------------------------ *)
(** ** The discovery session *)

Section SessionFacts.

Variable t : jsstring -> jsstring -> list (jsstring * jsstring) -> jsstring.

Lemma settled_fetchNearby loc lang names provider :
  settled (fetchNearbyHistoricalPlaces loc lang names provider)
  = match provider with
    | Fulfilled response => Fulfilled (parsePlaces (orElse (text response) []))
    | Rejected e => Rejected e
    end.
Proof. destruct provider; reflexivity. Qed.

Lemma length_zero_nil {A} (l : list A) :
  (length l =? 0) = true -> l = [].
Proof. destruct l; [reflexivity | discriminate]. Qed.

(** The continuation of a load-more appends the fulfilled places to the
    list as it is when the update is applied. *)
Lemma loadMoreFinish_places lang outcome s :
  nearbyPlaces (loadMoreFinish t lang outcome s)
  = nearbyPlaces s
    ++ match outcome with Fulfilled ps => ps | Rejected _ => [] end.
Proof.
  unfold loadMoreFinish. destruct outcome as [ps|e]; simpl.
  - destruct (length ps =? 0) eqn:E; simpl; [|reflexivity].
    apply length_zero_nil in E. subst. now rewrite app_nil_r.
  - now rewrite app_nil_r.
Qed.

Lemma handleLoadMore_places provider s :
  nearbyPlaces (fst (handleLoadMore t provider s))
  = nearbyPlaces s ++ loadMoreCandidates provider s.
Proof.
  unfold handleLoadMore, loadMoreStart, loadMoreCandidates.
  destruct (location s) as [loc|]; cbn [fst].
  - rewrite loadMoreFinish_places, settled_fetchNearby.
    destruct provider; reflexivity.
  - now rewrite app_nil_r.
Qed.

Lemma NoDup_app_disjoint {A} (l1 l2 : list A) :
  NoDup l1 -> NoDup l2 ->
  (forall x, In x l1 -> In x l2 -> False) ->
  NoDup (l1 ++ l2).
Proof.
  induction l1 as [|a l1 IH]; intros H1 H2 Hd; [exact H2|].
  inversion H1 as [|? ? Hna Hl1]; subst. simpl. constructor.
  - intros Hin. apply in_app_or in Hin as [Hin|Hin]; [now apply Hna|].
    apply (Hd a); [now left | exact Hin].
  - apply IH; [exact Hl1 | exact H2 |].
    intros x Hx1 Hx2. apply (Hd x); [now right | exact Hx2].
Qed.

End SessionFacts.

(** A discovery at (40.7128, -74.0060) answered with two lines shows two
    places in line order; selecting "Statue" clears the list and records the
    name. *)
Example discovery_then_selection :
  let response :=
    textResponse (lit "Statue | Monument | 50m" ++ newline
                  ++ lit "Park | Green Space | 200m") in
  let found :=
    fst (handleDiscoverNearby untranslated
           (GeoPosition (mkCoords 40712800 (-74006000))) response
           (resetState statueSession)) in
  let chosen :=
    fst (selectPlace untranslated (lit "Statue")
           (textResponse (lit "A statue.")) (Rejected (mkError None)) found) in
  nearbyPlaces found
  = [ mkPlace (lit "Statue") (lit "Monument") (lit "50m");
      mkPlace (lit "Park") (lit "Green Space") (lit "200m") ]
  /\ nearbyPlaces chosen = []
  /\ landmarkName chosen = lit "Statue"
  /\ error chosen = [].
Proof. vm_compute. repeat split. Qed.

(** C9.  [handleLoadMore] only appends: afterwards the previous list of
    places is an unchanged prefix of the new list, the newly parsed
    candidates follow it in the order the parser produced them, and the list
    is at least as long as before.  The same holds for the continuation of
    the handler applied to whatever state it resumes in. *)
Theorem loadMore_appends :
  forall t provider s,
    nearbyPlaces (fst (handleLoadMore t provider s))
    = nearbyPlaces s ++ loadMoreCandidates provider s
    /\ firstn (length (nearbyPlaces s)) (nearbyPlaces (fst (handleLoadMore t provider s)))
       = nearbyPlaces s
    /\ length (nearbyPlaces s)
       <= length (nearbyPlaces (fst (handleLoadMore t provider s)))
    /\ forall lang outcome s2,
         nearbyPlaces (loadMoreFinish t lang outcome s2)
         = nearbyPlaces s2
           ++ match outcome with Fulfilled ps => ps | Rejected _ => [] end.
Proof.
  intros t provider s. rewrite handleLoadMore_places. repeat split.
  - rewrite firstn_app, Nat.sub_diag, firstn_all. simpl. apply app_nil_r.
  - rewrite length_app. lia.
  - intros. apply loadMoreFinish_places.
Qed.

(** C1 as stated fails: with "Statue" on display and a provider that
    answers "Statue | Monument | 50m" again, the list after [handleLoadMore]
    holds the same name twice, although its names were distinct before. *)
Lemma loadMore_can_duplicate :
  distinctNames (nearbyPlaces statueSession)
  /\ nearbyPlaces
       (fst (handleLoadMore untranslated
               (textResponse (lit "Statue | Monument | 50m")) statueSession))
     = [ mkPlace (lit "Statue") (lit "Monument") (lit "50m");
         mkPlace (lit "Statue") (lit "Monument") (lit "50m") ]
  /\ ~ distinctNames
         (nearbyPlaces
            (fst (handleLoadMore untranslated
                    (textResponse (lit "Statue | Monument | 50m")) statueSession))).
Proof.
  split; [|split].
  - unfold distinctNames. simpl. constructor; [intros [] | constructor].
  - vm_compute. reflexivity.
  - unfold distinctNames. intros H.
    replace (nearbyPlaces _) with
      [ mkPlace (lit "Statue") (lit "Monument") (lit "50m");
        mkPlace (lit "Statue") (lit "Monument") (lit "50m") ] in H
      by (vm_compute; reflexivity).
    simpl in H. inversion H as [|? ? Hnotin _]. apply Hnotin. now left.
Qed.

(** C1, amended.  [handleLoadMore] appends every newly parsed candidate,
    unfiltered; the names on display reach the provider only inside the
    request.  So the list has no two entries with the same normalized name
    afterwards provided it had none before and the provider complied: the
    candidates have pairwise distinct normalized names, none of them that of
    an entry on display. *)
Theorem loadMore_distinct_when_provider_complies :
  forall t provider s,
    distinctNames (nearbyPlaces s) ->
    distinctNames (loadMoreCandidates provider s) ->
    (forall p q, In p (nearbyPlaces s) -> In q (loadMoreCandidates provider s) ->
                 normalizedName p <> normalizedName q) ->
    nearbyPlaces (fst (handleLoadMore t provider s))
    = nearbyPlaces s ++ loadMoreCandidates provider s
    /\ (forall loc, location s = Some loc ->
          snd (handleLoadMore t provider s)
          = [NearbyRequest loc (language s) (map name (nearbyPlaces s))])
    /\ distinctNames (nearbyPlaces (fst (handleLoadMore t provider s))).
Proof.
  intros t provider s Hold Hnew Hdisj. split; [apply handleLoadMore_places|split].
  - intros loc Hloc. unfold handleLoadMore, loadMoreStart. now rewrite Hloc.
  - rewrite handleLoadMore_places. unfold distinctNames in *.
    rewrite map_app. apply NoDup_app_disjoint; [exact Hold | exact Hnew |].
    intros x Hx1 Hx2.
    apply in_map_iff in Hx1 as (p & Hp & Hpin).
    apply in_map_iff in Hx2 as (q & Hq & Hqin).
    apply (Hdisj p q Hpin Hqin). congruence.
Qed.

Lemma loadMore_distinct_when_provider_complies_witness :
  distinctNames
    (nearbyPlaces
       (fst (handleLoadMore untranslated
               (textResponse (lit "Park | Green Space | 200m")) statueSession))).
Proof.
  apply (loadMore_distinct_when_provider_complies untranslated
           (textResponse (lit "Park | Green Space | 200m")) statueSession).
  - unfold distinctNames. simpl. constructor; [intros [] | constructor].
  - unfold distinctNames. vm_compute. constructor; [intros [] | constructor].
  - intros p q Hp Hq. vm_compute in Hp, Hq.
    destruct Hp as [<-|[]]. destruct Hq as [<-|[]].
    vm_compute. discriminate.
Defined.

(** C4 as stated fails.  With "Statue" on display, a load-more whose
    response parses to nothing reports no message at all (the error cell is
    left empty and no error box is rendered); and a discovery whose response
    parses to nothing does report the message, but the list on display was
    cleared when the discovery started, so it is not left as it was. *)
Lemma empty_load_more_reports_nothing :
  parsesToNothing (textResponse (lit "hi"))
  /\ error (fst (handleLoadMore untranslated (textResponse (lit "hi")) statueSession)) = []
  /\ rendersError
       (fst (handleLoadMore untranslated (textResponse (lit "hi")) statueSession))
     = false
  /\ nearbyPlaces statueSession
     = [ mkPlace (lit "Statue") (lit "Monument") (lit "50m") ]
  /\ nearbyPlaces
       (fst (handleDiscoverNearby untranslated (GeoPosition (mkCoords 40712800 (-74006000)))
               (textResponse (lit "hi")) statueSession))
     = [].
Proof.
  split; [|repeat split; vm_compute; reflexivity].
  eexists. split; reflexivity.
Qed.

(** C4, amended.  When the response of a discovery parses to zero
    candidates, the "no historical place found" message is put in the error
    cell, and the list of places, cleared when the discovery started, stays
    empty.  When the response of a load-more parses to zero candidates,
    nothing is reported (the error cell stays empty) and the accumulated list
    is left unchanged.  In both cases the handler makes exactly one provider
    call (no retry) and completes with its loading flag cleared. *)
Theorem empty_result_handling :
  forall t provider s,
    parsesToNothing provider ->
    (forall coords,
        let r := handleDiscoverNearby t (GeoPosition coords) provider s in
        error (fst r) = msgNothingFound
        /\ nearbyPlaces (fst r) = []
        /\ isLoading (fst r) = false
        /\ snd r = [NearbyRequest coords (language s) []])
    /\ (forall loc,
          location s = Some loc ->
          let r := handleLoadMore t provider s in
          error (fst r) = []
          /\ nearbyPlaces (fst r) = nearbyPlaces s
          /\ isLoadingMore (fst r) = false
          /\ snd r = [NearbyRequest loc (language s) (map name (nearbyPlaces s))]).
Proof.
  intros t provider s (response & -> & Hparse). split.
  - intros coords. unfold handleDiscoverNearby.
    rewrite settled_fetchNearby, Hparse. repeat split; reflexivity.
  - intros loc Hloc. unfold handleLoadMore, loadMoreStart. rewrite Hloc.
    rewrite settled_fetchNearby, Hparse. repeat split; reflexivity.
Qed.

Lemma empty_result_handling_witness :
  error
    (fst (handleDiscoverNearby untranslated (GeoPosition (mkCoords 40712800 (-74006000)))
            (textResponse (lit "hi")) statueSession))
  = msgNothingFound.
Proof.
  apply (empty_result_handling untranslated (textResponse (lit "hi")) statueSession).
  eexists. split; reflexivity.
Defined.

(* ------------------------------------------------------------------ *)
(** ** Narration generation *)

(** C10, counterexample.  [generateNarration] calls [getAI()] before its
    [try]: when the client constructor throws, the promise is rejected with
    that error, and no warning is logged. *)
Lemma narration_rejects_when_client_construction_throws :
  generateNarration (lit "A bridge.") (lit "English")
    (ClientThrows missingKey) (Fulfilled (mkResponse None None))
  = ([], Rejected missingKey).
Proof. reflexivity. Qed.

(** C10.  [generateNarration] rejects exactly when [getAI()] throws, and
    then with the error thrown and without a warning.  Once the client is
    constructed its promise is always fulfilled: when the provider call
    fails it warns and returns the empty string; when the response has no
    audio payload, or an empty one, it returns the empty string too, and a
    payload that is not empty is returned as it is.  Downstream the empty
    string is "no narration": after [processOutput] the error cell is what
    it was and no audio player is rendered, and an [AudioPlayer] given the
    empty string starts no decoding and logs nothing. *)
Theorem narration_rejects_only_before_the_try :
  (forall text0 lang client provider,
      match client with
      | ClientReady =>
          exists audio,
            settled (generateNarration text0 lang client provider) = Fulfilled audio
      | ClientThrows e =>
          generateNarration text0 lang client provider = ([], Rejected e)
      end)
  /\ (forall text0 lang e,
        generateNarration text0 lang ClientReady (Rejected e)
        = ([ConsoleWarn (lit "Failed to generate audio") e], Fulfilled []))
  /\ (forall text0 lang response,
        audioPayload response = None \/ audioPayload response = Some [] ->
        generateNarration text0 lang ClientReady (Fulfilled response)
        = ([], Fulfilled []))
  /\ (forall text0 lang response d,
        audioPayload response = Some d ->
        generateNarration text0 lang ClientReady (Fulfilled response)
        = ([], Fulfilled d))
  /\ (forall t name0 loc response narration s,
        (forall text0 lang,
            settled (generateNarration text0 lang ClientReady narration)
            = Fulfilled []) ->
        outputFormat s <> textOnly ->
        let r := processOutput t name0 loc (Fulfilled response) narration s in
        audioData (fst r) = Some []
        /\ error (fst r) = error s
        /\ rendersAudioPlayer (fst r) = false)
  /\ (forall p,
        AudioPlayer.decoding (AudioPlayer.step p (AudioPlayer.Submit []))
        = AudioPlayer.decoding p
        /\ AudioPlayer.consoleLog (AudioPlayer.step p (AudioPlayer.Submit []))
           = AudioPlayer.consoleLog p
        /\ AudioPlayer.isReady (AudioPlayer.step p (AudioPlayer.Submit []))
           = AudioPlayer.isReady p).
Proof.
  split; [|split; [|split; [|split; [|split]]]].
  - intros text0 lang [|e0] provider; [|reflexivity].
    destruct provider as [response|e]; eexists; reflexivity.
  - reflexivity.
  - intros text0 lang response [H|H]; unfold generateNarration; simpl;
      now rewrite H.
  - intros text0 lang response d H. unfold generateNarration. simpl.
    rewrite H. now destruct d.
  - intros t name0 loc response narration s Hsilent Hfmt.
    destruct s as [ln hi ad ci lg fmt np lo il ilm ls er]. simpl in Hfmt.
    unfold processOutput.
    destruct fmt; [congruence| |]; cbn -[generateNarration];
      rewrite Hsilent; cbn;
      (split; [reflexivity | split; [reflexivity|]]);
      unfold rendersAudioPlayer; cbn [audioData setIsLoading setAudioData truthy];
      rewrite andb_false_r; reflexivity.
  - intros [pl rd [c|] [h|] b ns dc [|] lg [pr|]]; cbn;
      unfold AudioPlayer.submit; cbn;
      try destruct (AudioPlayer.sameString pr []); repeat split; reflexivity.
Qed.

Lemma narration_rejects_only_before_the_try_witness :
  generateNarration (lit "A bridge.") (lit "English") ClientReady
    (Fulfilled (mkResponse None None))
  = ([], Fulfilled [])
  /\ rendersAudioPlayer
       (fst (processOutput untranslated (lit "Statue") None
               (textResponse (lit "A statue."))
               (Rejected (mkError (Some (lit "quota")))) statueSession))
     = false.
Proof.
  destruct narration_rejects_only_before_the_try
    as (_ & _ & Habsent & _ & Hdown & _).
  split.
  - apply Habsent. left. reflexivity.
  - apply (Hdown untranslated (lit "Statue") None
             (mkResponse (Some (lit "A statue.")) None)
             (Rejected (mkError (Some (lit "quota")))) statueSession).
    + reflexivity.
    + vm_compute. discriminate.
Defined.

(* ------------------------------------------------------------------ *)
(** ** The narration player *)

Module PlayerFacts.
Import AudioPlayer.

Lemma run_snoc trace ev p : run (trace ++ [ev]) p = step (run trace p) ev.
Proof. unfold run. now rewrite fold_left_app. Qed.

Lemma Forall_updateNth {A} (P : A -> Prop) f n l :
  (forall x, P x -> P (f x)) -> Forall P l -> Forall P (updateNth n f l).
Proof.
  intros Hf. revert n. induction l as [|x l IH]; intros n H; [constructor|].
  inversion H; subst. destruct n; simpl; constructor; auto.
Qed.

Lemma wellFormed_initial : wellFormed initial.
Proof. repeat split; simpl; try discriminate; try congruence. constructor. Qed.

Lemma offsets_halt ns h :
  Forall (fun n => startOffset n = 0%N) ns ->
  Forall (fun n => startOffset n = 0%N) (updateNth h halt ns).
Proof.
  apply Forall_updateNth. intros [b o st] H. unfold halt. now destruct st.
Qed.

Ltac player_auto Hr Hd :=
  repeat split; simpl in *; intros;
  first [ congruence | assumption | discriminate
        | apply Hr; congruence | apply Hd; congruence | idtac ].

Lemma wellFormed_cleanup p : wellFormed p -> wellFormed (cleanup p).
Proof.
  intros (Hr & Hd & Ho). unfold cleanup. destruct (audioSourceRef p); [|easy].
  player_auto Hr Hd. now apply offsets_halt.
Qed.

Lemma wellFormed_effect d p : wellFormed p -> wellFormed (effect d p).
Proof.
  destruct p as [pl rd c h b ns dc m lg pr]. intros (Hr & Hd & Ho). simpl in *.
  unfold effect. destruct c as [c|], d as [|x d], m, rd; player_auto Hr Hd.
Qed.

Lemma wellFormed_decodeResolved i p :
  wellFormed p -> wellFormed (decodeResolved i p).
Proof.
  destruct p as [pl rd c h b ns dc m lg pr]. intros (Hr & Hd & Ho). simpl in *.
  unfold decodeResolved. simpl.
  destruct (nth_error dc i) eqn:E; [|player_auto Hr Hd].
  assert (dc <> []) by (intros ->; destruct i; discriminate).
  destruct m, rd; player_auto Hr Hd.
Qed.

Lemma wellFormed_decodeRejected i e p :
  wellFormed p -> wellFormed (decodeRejected i e p).
Proof.
  destruct p as [pl rd c h b ns dc m lg pr]. intros (Hr & Hd & Ho). simpl in *.
  unfold decodeRejected. simpl.
  destruct (nth_error dc i) eqn:E; [|player_auto Hr Hd].
  assert (dc <> []) by (intros ->; destruct i; discriminate).
  player_auto Hr Hd.
Qed.

Lemma wellFormed_handlePlayPause p :
  wellFormed p -> wellFormed (handlePlayPause p).
Proof.
  destruct p as [pl rd c h b ns dc m lg pr]. intros (Hr & Hd & Ho). simpl in *.
  unfold handlePlayPause. simpl.
  destruct rd, c as [c|], b as [b|]; try (player_auto Hr Hd; fail).
  destruct pl.
  - destruct h as [h|], m; player_auto Hr Hd; now apply offsets_halt.
  - destruct m; player_auto Hr Hd;
      (apply Forall_app; split; [assumption | now repeat constructor]).
Qed.

Lemma wellFormed_endedEvent h p :
  wellFormed p -> wellFormed (endedEvent h p).
Proof.
  destruct p as [pl rd c r b ns dc m lg pr]. intros (Hr & Hd & Ho). simpl in *.
  unfold endedEvent. simpl.
  destruct (nth_error ns h) as [n|]; [|player_auto Hr Hd].
  destruct (nodeState n), m; player_auto Hr Hd;
    (apply Forall_updateNth; [now intros [] | assumption]).
Qed.

Lemma sameString_refl a : sameString a a = true.
Proof. induction a as [|x a IH]; simpl; [reflexivity|]. now rewrite N.eqb_refl. Qed.

Lemma sameString_eq a b : sameString a b = true -> a = b.
Proof.
  revert b. induction a as [|x a IH]; intros [|y b]; simpl; try congruence.
  intros H. apply andb_true_iff in H as [Hx Hab].
  apply N.eqb_eq in Hx. apply IH in Hab. congruence.
Qed.

(** A render with the value the effect last ran for runs nothing. *)
Lemma submit_same d p : audioDataProp p = Some d -> submit d p = p.
Proof. intros H. unfold submit. rewrite H. simpl. now rewrite sameString_refl. Qed.

(** A render with another value runs the cleanup, then the effect. *)
Lemma submit_new d p :
  audioDataProp p <> Some d ->
  submit d p = setAudioDataProp (Some d) (effect d (cleanup p)).
Proof.
  intros H. unfold submit. destruct (audioDataProp p) as [d0|]; simpl; [|reflexivity].
  destruct (sameString d0 d) eqn:E; [|reflexivity].
  apply sameString_eq in E. congruence.
Qed.

Lemma submit_cases d p :
  submit d p = p \/ submit d p = setAudioDataProp (Some d) (effect d (cleanup p)).
Proof. unfold submit. destruct (sameProp (audioDataProp p) d); auto. Qed.

Lemma nodes_effect d p : nodes (effect d p) = nodes p.
Proof. destruct p as [pl rd [c|] r b ns dc [|] lg pr], d; reflexivity. Qed.

Lemma wellFormed_step p ev : wellFormed p -> wellFormed (step p ev).
Proof.
  intros H. destruct ev; simpl.
  - destruct (mounted p); [|exact H].
    destruct (submit_cases audioData0 p) as [-> | ->]; [exact H|].
    apply wellFormed_cleanup, (wellFormed_effect audioData0) in H.
    destruct (effect audioData0 (cleanup p)). exact H.
  - now apply wellFormed_decodeResolved.
  - now apply wellFormed_decodeRejected.
  - destruct (mounted p); [|exact H]. now apply wellFormed_handlePlayPause.
  - now apply wellFormed_endedEvent.
  - destruct (mounted p); [|exact H].
    apply wellFormed_cleanup in H. destruct H as (Hr & Hd & Ho).
    destruct (cleanup p). player_auto Hr Hd.
Qed.

Lemma wellFormed_run trace : wellFormed (run trace initial).
Proof.
  induction trace as [|ev trace IH] using rev_ind.
  - exact wellFormed_initial.
  - rewrite run_snoc. now apply wellFormed_step.
Qed.

(** C5, at the inputs where the source departs from it.  The component
    decides by its two flags, and nothing ties them to the decoding or the
    node they were set for.  After [staleDecodeTrace] the second payload is
    still being decoded, yet the component is ready, by the first decoding:
    a click is not ignored, it plays the first payload.  After
    [pendingEndedTrace] the component is ready and nothing sounds, yet it
    still shows "pause": a click starts nothing.  After
    [forgottenNodeTrace] a node sounds, yet the component shows "play" and
    holds no handle: a click does not stop the node, it starts another one
    beside it.  None of the three traces is calm. *)
Theorem stale_flags_break_the_phases :
  (phase (run staleDecodeTrace initial) = Decoding
   /\ decoding (run staleDecodeTrace initial) = [otherClip]
   /\ isReady (run staleDecodeTrace initial) = true
   /\ map audible (nodes (run staleDecodeTrace initial)) = []
   /\ map audible (nodes (step (run staleDecodeTrace initial) Click))
      = [(clip, Sounding)])
  /\ (phase (run pendingEndedTrace initial) = Ready
      /\ isPlaying (run pendingEndedTrace initial) = true
      /\ phase (step (run pendingEndedTrace initial) Click) = Ready
      /\ map audible (nodes (step (run pendingEndedTrace initial) Click))
         = [(clip, Halted)])
  /\ (phase (run forgottenNodeTrace initial) = Playing
      /\ isPlaying (run forgottenNodeTrace initial) = false
      /\ audioSourceRef (run forgottenNodeTrace initial) = None
      /\ map nodeState (nodes (run forgottenNodeTrace initial))
         = [Finished; Sounding]
      /\ phase (step (run forgottenNodeTrace initial) Click) = Playing
      /\ map nodeState (nodes (step (run forgottenNodeTrace initial) Click))
         = [Finished; Sounding; Sounding])
  /\ ~ calmly initial staleDecodeTrace
  /\ ~ calmly initial pendingEndedTrace
  /\ ~ calmly initial forgottenNodeTrace.
Proof.
  split; [|split; [|split; [|split; [|split]]]].
  - vm_compute. split; [|split; [|split; [|split]]]; reflexivity.
  - vm_compute. split; [|split; [|split]]; reflexivity.
  - vm_compute. split; [|split; [|split; [|split; [|split]]]]; reflexivity.
  - intros (_ & [H|[H _]] & _); discriminate.
  - intros (_ & _ & _ & [H|[_ H]] & _); discriminate.
  - intros (_ & _ & _ & _ & _ & [H|H] & _); discriminate.
Qed.

(** *** One handle at a time, when [ended] is timely *)

Lemma quiet_no_active ns : quiet ns -> filter isSounding ns = [].
Proof.
  induction 1 as [|n ns Hn _ IH]; [reflexivity|]. simpl. now rewrite Hn.
Qed.

Lemma quiet_not_sounding ns i n :
  quiet ns -> nth_error ns i = Some n -> isSounding n = true -> False.
Proof.
  intros Hq Hn Hs. apply nth_error_In in Hn.
  unfold quiet in Hq. rewrite Forall_forall in Hq.
  specialize (Hq n Hn). congruence.
Qed.

(** If only node [h] can sound, silencing node [h] silences the list. *)
Lemma quiet_updateNth f h ns :
  (forall x, isSounding (f x) = false) ->
  (forall i n, nth_error ns i = Some n -> isSounding n = true -> i = h) ->
  quiet (updateNth h f ns).
Proof.
  intros Hf. revert h. induction ns as [|x ns IH]; intros h H; [constructor|].
  destruct h as [|h]; simpl.
  - constructor; [apply Hf|].
    apply Forall_forall. intros n Hin.
    destruct (isSounding n) eqn:E; [|reflexivity].
    apply In_nth_error in Hin as [i Hi].
    specialize (H (S i) n Hi E). discriminate.
  - constructor.
    + destruct (isSounding x) eqn:E; [|reflexivity].
      specialize (H 0 x eq_refl E). discriminate.
    + apply IH. intros i n Hi Hs. specialize (H (S i) n Hi Hs). now injection H.
Qed.

Lemma halt_silent x : isSounding (halt x) = false.
Proof. destruct x as [b o []]; reflexivity. Qed.

Lemma at_most_one_sounding h ns :
  (forall i n, nth_error ns i = Some n -> isSounding n = true -> i = h) ->
  length (filter isSounding ns) <= 1.
Proof.
  revert h. induction ns as [|x ns IH]; intros h H; simpl; [lia|].
  destruct (isSounding x) eqn:E.
  - assert (h = 0) by (symmetry; apply (H 0 x eq_refl E)). subst h.
    assert (Hq : quiet ns).
    { apply Forall_forall. intros n Hin.
      destruct (isSounding n) eqn:En; [|reflexivity].
      apply In_nth_error in Hin as [i Hi].
      specialize (H (S i) n Hi En). discriminate. }
    rewrite (quiet_no_active _ Hq). simpl. lia.
  - destruct h as [|h].
    + assert (Hq : quiet ns).
      { apply Forall_forall. intros n Hin.
        destruct (isSounding n) eqn:En; [|reflexivity].
        apply In_nth_error in Hin as [i Hi].
        specialize (H (S i) n Hi En). discriminate. }
      rewrite (quiet_no_active _ Hq). simpl. lia.
    + apply (IH h). intros i n Hi Hs. specialize (H (S i) n Hi Hs). now injection H.
Qed.

Lemma tracked_one_handle p : tracked p -> length (activeHandles p) <= 1.
Proof.
  intros [Ha _]. unfold activeHandles.
  destruct (audioSourceRef p) as [h|] eqn:E.
  - apply (at_most_one_sounding h). intros i n Hi Hs.
    specialize (Ha i n Hi Hs). congruence.
  - apply (at_most_one_sounding 0). intros i n Hi Hs.
    specialize (Ha i n Hi Hs). congruence.
Qed.

(** The cleanup function silences a component that keeps track of its
    handle. *)
Lemma tracked_cleanup_quiet p : tracked p -> quiet (nodes (cleanup p)).
Proof.
  intros [Ha Hb]. unfold cleanup.
  destruct (audioSourceRef p) as [h|] eqn:E.
  - simpl. apply quiet_updateNth; [apply halt_silent|].
    intros i n Hi Hs. specialize (Ha i n Hi Hs). congruence.
  - apply Forall_forall. intros n Hin.
    destruct (isSounding n) eqn:En; [|reflexivity].
    apply In_nth_error in Hin as [i Hi].
    specialize (Ha i n Hi En). discriminate.
Qed.

Lemma quiet_tracked p : quiet (nodes p) -> tracked p.
Proof.
  intros Hq. split; [|intros _; exact Hq].
  intros i n Hi Hs. exfalso. exact (quiet_not_sounding _ _ _ Hq Hi Hs).
Qed.

Lemma tracked_step p ev : tracked p -> timely p ev -> tracked (step p ev).
Proof.
  intros Ht Htime. destruct ev as [d|i|i e| |h|]; simpl.
  - (* Submit *)
    destruct (mounted p) eqn:Em; [|exact Ht].
    destruct (submit_cases d p) as [-> | ->]; [exact Ht|].
    apply quiet_tracked.
    assert (Hq := tracked_cleanup_quiet p Ht).
    replace (nodes (setAudioDataProp (Some d) (effect d (cleanup p))))
      with (nodes (cleanup p)); [exact Hq|].
    simpl. now rewrite nodes_effect.
  - (* DecodeResolved *)
    destruct Ht as [Ha Hb]. destruct p as [pl rd c r b ns dc m lg pr].
    unfold decodeResolved. simpl in *.
    destruct (nth_error dc i); [|now split]. destruct m; now split.
  - (* DecodeRejected *)
    destruct Ht as [Ha Hb]. destruct p as [pl rd c r b ns dc m lg pr].
    unfold decodeRejected. simpl in *.
    destruct (nth_error dc i); now split.
  - (* Click *)
    destruct (mounted p) eqn:Em; [|exact Ht].
    assert (Hc := tracked_cleanup_quiet p Ht).
    destruct Ht as [Ha Hb]. destruct p as [pl rd c r b ns dc m lg pr].
    simpl in *. subst m. unfold handlePlayPause. simpl.
    destruct rd; [|now split]. destruct c as [c|]; [|now split].
    destruct b as [b|]; [|now split]. destruct pl.
    + apply quiet_tracked. unfold cleanup in Hc. simpl in Hc.
      destruct r as [h|]; exact Hc.
    + assert (Hq : quiet ns) by (apply Hb; now right).
      split; simpl.
      * intros i n Hi Hs.
        destruct (Nat.lt_ge_cases i (length ns)) as [Hlt|Hge].
        -- rewrite nth_error_app1 in Hi by exact Hlt.
           exfalso. exact (quiet_not_sounding _ _ _ Hq Hi Hs).
        -- rewrite nth_error_app2 in Hi by exact Hge.
           destruct (i - length ns) as [|k] eqn:Ek.
           ++ f_equal. lia.
           ++ simpl in Hi. destruct k; discriminate.
      * intros [H|H]; discriminate.
  - (* Ended *)
    destruct Ht as [Ha Hb]. destruct p as [pl rd c r b ns dc m lg pr].
    unfold endedEvent. simpl in *.
    destruct (nth_error ns h) as [n|] eqn:En; [|now split].
    destruct (nodeState n) eqn:Est; [| |now split];
      (apply quiet_tracked;
       replace (nodes _) with
         (updateNth h (fun n => mkNode (buffer n) (startOffset n) Finished) ns)
         by (destruct m; reflexivity);
       apply quiet_updateNth; [reflexivity|];
       intros i n' Hi Hs; specialize (Ha i n' Hi Hs);
       destruct Htime as [Hr|Hr]; rewrite Hr in Ha; congruence).
  - (* Unmount *)
    destruct (mounted p) eqn:Em; [|exact Ht].
    apply quiet_tracked.
    assert (Hq := tracked_cleanup_quiet p Ht).
    destruct (cleanup p); exact Hq.
Qed.

(** The end of the clip of a sounding node is always timely. *)
Lemma natural_completion_timely p h n :
  tracked p -> nth_error (nodes p) h = Some n -> isSounding n = true ->
  timely p (Ended h).
Proof. intros [Ha _] Hn Hs. right. exact (Ha h n Hn Hs). Qed.

Lemma tracked_initial : tracked initial.
Proof. apply quiet_tracked. constructor. Qed.

Lemma tracked_run trace p :
  tracked p -> orderly p trace -> tracked (run trace p).
Proof.
  revert p. induction trace as [|ev trace IH]; intros p Ht Ho; [exact Ht|].
  destruct Ho as [Hev Ho]. simpl. apply IH; [|exact Ho].
  now apply tracked_step.
Qed.

(** X14.  With every [ended] timely, that is, reaching its node before a
    later node has taken its place in [audioSourceRef], the component has at
    most one active handle at every point, and none right after the effect
    ran for a new value of the prop or after a teardown.  A render with the
    value the effect last ran for changes nothing. *)
Lemma one_handle_when_ended_is_timely trace :
  orderly initial trace ->
  length (activeHandles (run trace initial)) <= 1
  /\ (forall d, mounted (run trace initial) = true ->
                audioDataProp (run trace initial) <> Some d ->
                activeHandles (step (run trace initial) (Submit d)) = [])
  /\ (forall d, audioDataProp (run trace initial) = Some d ->
                step (run trace initial) (Submit d) = run trace initial)
  /\ (mounted (run trace initial) = true ->
      activeHandles (step (run trace initial) Unmount) = []).
Proof.
  intros Ho. assert (Ht := tracked_run trace initial tracked_initial Ho).
  split; [now apply tracked_one_handle|].
  assert (Hq := tracked_cleanup_quiet _ Ht).
  split; [|split].
  - intros d Hm Hnew. simpl. rewrite Hm, (submit_new d _ Hnew).
    unfold activeHandles.
    replace (nodes (setAudioDataProp (Some d)
                      (effect d (cleanup (run trace initial)))))
      with (nodes (cleanup (run trace initial)))
      by (simpl; now rewrite nodes_effect).
    now apply quiet_no_active.
  - intros d Hsame. simpl. rewrite (submit_same d _ Hsame).
    now destruct (mounted (run trace initial)).
  - intros Hm. simpl. rewrite Hm. unfold activeHandles.
    replace (nodes (setMounted false (cleanup (run trace initial))))
      with (nodes (cleanup (run trace initial))) by reflexivity.
    now apply quiet_no_active.
Qed.

(** Play, stop with a prompt [ended], play to the end of the clip, submit
    another payload while the third node sounds, unmount: an orderly trace. *)
Example one_handle_on_an_orderly_trace :
  length
    (activeHandles
       (run [Submit clip; DecodeResolved 0; Click; Click; Ended 0; Click;
             Ended 1; Click; Submit otherClip; Ended 2; DecodeResolved 0;
             Unmount] initial)) <= 1.
Proof.
  apply one_handle_when_ended_is_timely. simpl. intuition.
Defined.

(** C6, at the inputs where the source departs from it.  A stopped node
    still receives [ended], and its [onended] clears [audioSourceRef] and
    [isPlaying] whichever node is current.  In [lateEndedTrace] that event
    reaches the first node after the second was started: the component
    forgets the second node, the next click starts a third, two nodes sound
    at once, and a teardown stops only the third.  In [lateDecodeTrace] the
    decoding of an earlier payload completes after a new submission: the
    node started then is still sounding when the buffer is replaced. *)
Theorem late_ended_overlaps_handles :
  ~ orderly initial lateEndedTrace
  /\ map nodeState (nodes (run lateEndedTrace initial))
     = [Finished; Sounding; Sounding]
  /\ length (activeHandles (run lateEndedTrace initial)) = 2
  /\ map nodeState (nodes (run (lateEndedTrace ++ [Unmount]) initial))
     = [Finished; Sounding; Halted]
  /\ length (activeHandles (run (lateEndedTrace ++ [Unmount]) initial)) = 1
  /\ audioBufferRef (run lateDecodeTrace initial) = Some (mkBuffer clip 24000 1)
  /\ audioBufferRef (step (run lateDecodeTrace initial) (DecodeResolved 0))
     = Some (mkBuffer otherClip 24000 1)
  /\ map nodeState (nodes (step (run lateDecodeTrace initial) (DecodeResolved 0)))
     = [Sounding].
Proof.
  split; [|repeat split].
  intros (_ & _ & _ & _ & _ & [H|H] & _); discriminate.
Qed.

End PlayerFacts.

(* ================================================================== *)
(** * Further properties *)

(* ------------------------------------------------------------------ *)
(** ** More on the string primitives *)

Section TrimFacts.

Lemma dropWhile_head p s x r : dropWhile p s = x :: r -> p x = false.
Proof.
  induction s as [|c s IH]; simpl; [discriminate|].
  destruct (p c) eqn:E; [exact IH|].
  intros H. injection H as <- _. exact E.
Qed.

Lemma length_dropWhile p s : length (dropWhile p s) <= length s.
Proof.
  induction s as [|c s IH]; simpl; [lia|]. destruct (p c); simpl; lia.
Qed.

Lemma dropWhile_app_stop p m x r :
  p x = false -> dropWhile p (m ++ x :: r) = dropWhile p m ++ x :: r.
Proof.
  intros Hx. induction m as [|c m IH]; simpl; [now rewrite Hx|].
  destruct (p c); [exact IH | reflexivity].
Qed.

Lemma dropWhile_all p m : Forall (fun c => p c = true) m -> dropWhile p m = [].
Proof. induction 1 as [|c m Hc _ IH]; simpl; [reflexivity | now rewrite Hc]. Qed.

Lemma length_trimEnd s : length (trimEnd s) <= length s.
Proof.
  unfold trimEnd. rewrite length_rev.
  etransitivity; [apply length_dropWhile | now rewrite length_rev].
Qed.

Lemma trimEnd_snoc_keep s y :
  isWhiteSpace y = false -> trimEnd (s ++ [y]) = s ++ [y].
Proof.
  intros Hy. unfold trimEnd. rewrite rev_app_distr. simpl. rewrite Hy.
  change (y :: rev s) with ([y] ++ rev s).
  now rewrite rev_app_distr, rev_involutive.
Qed.

Lemma trimEnd_snoc_drop s w :
  isWhiteSpace w = true -> trimEnd (s ++ [w]) = trimEnd s.
Proof.
  intros Hw. unfold trimEnd. rewrite rev_app_distr. simpl. now rewrite Hw.
Qed.

(** [trimEnd] keeps a prefix. *)
Lemma trimEnd_prefix s : exists w, s = trimEnd s ++ w.
Proof.
  unfold trimEnd. destruct (dropWhile_suffix isWhiteSpace (rev s)) as [w Hw].
  exists (rev w). rewrite <- rev_app_distr, <- Hw. symmetry. apply rev_involutive.
Qed.

Lemma trim_edges x r r' y :
  isWhiteSpace x = false -> isWhiteSpace y = false ->
  x :: r = r' ++ [y] -> trim (x :: r) = x :: r.
Proof.
  intros Hx Hy E. unfold trim, trimStart. simpl. rewrite Hx.
  rewrite E. now apply trimEnd_snoc_keep.
Qed.

Lemma tidy_head s :
  tidy s -> exists x r, s = x :: r /\ isWhiteSpace x = false.
Proof.
  intros [Hne Ht]. destruct s as [|x r]; [congruence|].
  exists x, r. split; [reflexivity|].
  destruct (isWhiteSpace x) eqn:E; [|reflexivity]. exfalso.
  assert (Hl : length (trim (x :: r)) <= length r).
  { unfold trim, trimStart. simpl. rewrite E.
    etransitivity; [apply length_trimEnd | apply length_dropWhile]. }
  rewrite Ht in Hl. simpl in Hl. lia.
Qed.

Lemma tidy_trimEnd s : tidy s -> trimEnd s = s.
Proof.
  intros H. destruct (tidy_head s H) as (x & r & -> & Hx).
  destruct H as [_ Ht]. unfold trim, trimStart in Ht. simpl in Ht.
  now rewrite Hx in Ht.
Qed.

Lemma tidy_last s :
  tidy s -> exists r y, s = r ++ [y] /\ isWhiteSpace y = false.
Proof.
  intros H. pose proof (tidy_trimEnd s H) as He. destruct H as [Hne _].
  destruct (rev s) as [|y q] eqn:Er.
  - apply (f_equal (@rev codeunit)) in Er. rewrite rev_involutive in Er.
    simpl in Er. congruence.
  - assert (Hs : s = rev q ++ [y]).
    { rewrite <- (rev_involutive s), Er. reflexivity. }
    exists (rev q), y. split; [exact Hs|].
    destruct (isWhiteSpace y) eqn:E; [|reflexivity]. exfalso.
    assert (Hl : length (trimEnd s) <= length q).
    { unfold trimEnd. rewrite Er. simpl. rewrite E, length_rev.
      apply length_dropWhile. }
    rewrite He, Hs, length_app, length_rev in Hl. simpl in Hl. lia.
Qed.

(** White space around a tidy field is what [trim] removes. *)
Lemma trim_padded s :
  tidy s -> trim (32%N :: s ++ [32%N]) = s /\ trim (32%N :: s) = s
            /\ trim (s ++ [32%N]) = s.
Proof.
  intros H. pose proof (tidy_trimEnd s H) as He.
  destruct (tidy_head s H) as (x & r & -> & Hx).
  unfold trim, trimStart. simpl. rewrite Hx.
  change (x :: r ++ [32%N]) with ((x :: r) ++ [32%N]).
  rewrite trimEnd_snoc_drop by reflexivity. now rewrite He.
Qed.

(** What [trim] returns has no white space left around it. *)
Lemma trim_idempotent s : trim (trim s) = trim s.
Proof.
  destruct (trim s) as [|x r] eqn:E; [reflexivity|].
  unfold trim in E.
  destruct (trimEnd_prefix (trimStart s)) as [w Hw]. rewrite E in Hw.
  assert (Hx : isWhiteSpace x = false).
  { apply (dropWhile_head isWhiteSpace s x (r ++ w)). exact Hw. }
  unfold trimEnd in E.
  destruct (dropWhile isWhiteSpace (rev (trimStart s))) as [|y q] eqn:Ed;
    [discriminate|].
  apply dropWhile_head in Ed.
  simpl in E. symmetry in E.
  exact (trim_edges x r (rev q) y Hx Ed E).
Qed.

Lemma includes_unit_app c a b :
  includes [c] (a ++ b) = includes [c] a || includes [c] b.
Proof.
  induction a as [|x a IH].
  - simpl. destruct b; reflexivity.
  - change ((x :: a) ++ b) with (x :: a ++ b).
    rewrite !includes_unit_cons, IH. now rewrite orb_assoc.
Qed.

Lemma not_includes_dropWhile p d s :
  includes d s = false -> includes d (dropWhile p s) = false.
Proof.
  intros H. destruct (includes d (dropWhile p s)) eqn:E; [|reflexivity].
  apply includes_dropWhile in E. congruence.
Qed.

(** No field of a split at a single code unit contains that code unit. *)
Lemma splitFrom_unit_fields c cur s f :
  includes [c] (rev cur) = false ->
  In f (splitFrom [c] 0 cur s) -> includes [c] f = false.
Proof.
  revert cur. induction s as [|x s IH]; intros cur Hcur Hin.
  - simpl in Hin. destruct Hin as [<-|[]]. exact Hcur.
  - simpl in Hin. destruct (c =? x)%N eqn:E; simpl in Hin.
    + destruct Hin as [<-|Hin]; [exact Hcur|].
      apply (IH []); [reflexivity | exact Hin].
    + apply (IH (x :: cur)); [|exact Hin].
      simpl. rewrite includes_unit_app, Hcur. simpl.
      rewrite andb_true_r, E. reflexivity.
Qed.

Lemma split_unit_fields c s f :
  In f (split [c] s) -> includes [c] f = false.
Proof. apply splitFrom_unit_fields. reflexivity. Qed.

(** A split at a single code unit has one field more than the text has
    occurrences of it. *)
Lemma length_splitFrom_unit c cur s :
  length (splitFrom [c] 0 cur s) = S (count_occ N.eq_dec s c).
Proof.
  revert cur. induction s as [|x s IH]; intros cur; [reflexivity|].
  simpl. destruct (N.eq_dec x c) as [->|Hne].
  - rewrite N.eqb_refl. simpl. now rewrite IH.
  - replace (c =? x)%N with false; [simpl; apply IH|].
    symmetry. apply N.eqb_neq. congruence.
Qed.

End TrimFacts.

(* ------------------------------------------------------------------ *)
(** ** More on the place-list parser *)

Section ParserShape.

Lemma parsed_from_line text p :
  In p (parsePlaces text) -> exists line, p = parseLine line.
Proof.
  unfold parsePlaces. intros H. apply filter_In in H as [H _].
  apply in_map_iff in H as (line & <- & _). now exists line.
Qed.

Lemma lineCandidate_from_line l p :
  In p (lineCandidates l) -> p = parseLine (trim l).
Proof.
  rewrite lineCandidates_eq.
  destruct (keepLine (trim l)); [|intros []].
  destruct (keepPlace (parseLine (trim l))); [|intros []].
  intros [<-|[]]. reflexivity.
Qed.

Lemma length_lineCandidates l : length (lineCandidates l) <= 1.
Proof.
  rewrite lineCandidates_eq.
  destruct (keepLine (trim l)); [|simpl; lia].
  destruct (keepPlace (parseLine (trim l))); simpl; lia.
Qed.

Lemma length_flat_map_le {A B} (f : A -> list B) (l : list A) :
  (forall a, length (f a) <= 1) -> length (flat_map f l) <= length l.
Proof.
  intros Hf. induction l as [|a l IH]; simpl; [lia|].
  rewrite length_app. specialize (Hf a). lia.
Qed.

Lemma cleanName_head line x r :
  cleanName line = x :: r -> isMarker x = false.
Proof.
  unfold cleanName, trim. intros H.
  remember (stripMarkers (orElse (nth_error (splitParts line) 0) [])) as u eqn:Eu.
  destruct (trimEnd_prefix (trimStart u)) as [w Hw]. rewrite H in Hw.
  destruct u as [|y u'].
  - discriminate Hw.
  - assert (Hy : isMarker y = false).
    { symmetry in Eu. unfold stripMarkers in Eu. now apply dropWhile_head in Eu. }
    assert (Hws : isWhiteSpace y = false).
    { unfold isMarker in Hy. destruct (isWhiteSpace y); [|reflexivity].
      rewrite orb_true_r in Hy. discriminate Hy. }
    unfold trimStart in Hw. simpl in Hw. rewrite Hws in Hw.
    simpl in Hw. injection Hw as -> _. exact Hy.
Qed.

(** The three fields of a line are read off the first three parts. *)
Lemma parseLine_of_parts line f0 f1 f2 more :
  splitParts line = f0 :: f1 :: f2 :: more ->
  parseLine line
  = mkPlace
      (orElse (Some (trim (stripMarkers (orElse (Some f0) []))))
         (lit "Interesting Place"))
      (trim (orElse (Some f1) (lit "Point of Interest")))
      (trim (orElse (Some f2) [])).
Proof. intros H. unfold parseLine. rewrite H. reflexivity. Qed.

Lemma split_pipe_three f0 f1 f2 rest :
  includes pipe f0 = false -> includes pipe f1 = false ->
  includes pipe f2 = false ->
  split pipe (f0 ++ pipe ++ f1 ++ pipe ++ f2 ++ rest)
  = match rest with
    | [] => [f0; f1; f2]
    | _ => f0 :: f1 :: split pipe (f2 ++ rest)
    end
  /\ split pipe (f0 ++ pipe ++ f1 ++ pipe ++ f2 ++ pipe ++ rest)
     = f0 :: f1 :: f2 :: split pipe rest.
Proof.
  intros H0 H1 H2. change pipe with [124%N] in *.
  rewrite !split_unit_app.
  rewrite (split_unit_absent _ _ H0), (split_unit_absent _ _ H1),
    (split_unit_absent _ _ H2).
  split; [|reflexivity].
  destruct rest; [|reflexivity].
  rewrite app_nil_r, (split_unit_absent _ _ H2). reflexivity.
Qed.

Lemma includes_pipe_mid a b : includes pipe (a ++ pipe ++ b) = true.
Proof.
  change pipe with [124%N]. rewrite !includes_unit_app.
  simpl. apply orb_true_r.
Qed.

End ParserShape.

(** X1.  Every place the parser returns is clean: its name, category and
    distance have no white space around them, and its name does not begin
    with a digit, white space, ".", "-" or "*". *)
Theorem parsed_fields_are_clean :
  forall text p,
    In p (parsePlaces text) ->
    trim (name p) = name p /\ trim (type p) = type p
    /\ trim (distance p) = distance p
    /\ exists x r, name p = x :: r /\ isMarker x = false.
Proof.
  intros text p H. destruct (parsed_from_line text p H) as [line ->].
  rewrite name_parseLine.
  repeat split; try apply trim_idempotent.
  - destruct (cleanName line) as [|x r] eqn:E; [reflexivity|].
    simpl. rewrite <- E. apply trim_idempotent.
  - destruct (cleanName line) as [|x r] eqn:E.
    + eexists _, _. split; reflexivity.
    + exists x, r. split; [reflexivity|]. exact (cleanName_head line x r E).
Qed.

Lemma parsed_fields_are_clean_witness :
  trim (lit "Old Bridge") = lit "Old Bridge"
  /\ trim (lit "Monument") = lit "Monument"
  /\ trim (lit "120m") = lit "120m"
  /\ exists x r, lit "Old Bridge" = x :: r /\ isMarker x = false.
Proof.
  apply (parsed_fields_are_clean
           ([32] ++ lit " 1. Old Bridge  -  Monument  -  120m ")%N
           (mkPlace (lit "Old Bridge") (lit "Monument") (lit "120m"))).
  vm_compute. left. reflexivity.
Defined.

(** X2.  The parser returns at most one place per line: never more places
    than the text has line breaks, plus one. *)
Theorem parsed_count_bounded_by_lines :
  forall text,
    length (parsePlaces text) <= S (count_occ N.eq_dec text 10%N).
Proof.
  intros text. rewrite parsePlaces_by_line.
  etransitivity; [apply length_flat_map_le, length_lineCandidates|].
  unfold newline, split. now rewrite length_splitFrom_unit.
Qed.

(** X3.  On a line that contains "|", the place's name, category and
    distance contain no "|": the delimiter never leaks into a field, even
    when the line has " - " or ":" as well. *)
Theorem pipe_line_fields_have_no_pipe :
  forall l p,
    includes pipe (trim l) = true ->
    In p (lineCandidates l) ->
    includes pipe (name p) = false
    /\ includes pipe (type p) = false
    /\ includes pipe (distance p) = false.
Proof.
  intros l p Hpipe Hin. apply lineCandidate_from_line in Hin. subst p.
  assert (Hparts : forall i f, nth_error (splitParts (trim l)) i = Some f ->
                               includes pipe f = false).
  { intros i f Hf. apply nth_error_In in Hf.
    unfold splitParts in Hf. rewrite Hpipe in Hf.
    change pipe with [124%N] in *. exact (split_unit_fields _ _ _ Hf). }
  assert (Hor : forall i d, includes pipe d = false ->
                includes pipe (orElse (nth_error (splitParts (trim l)) i) d) = false).
  { intros i d Hd. destruct (nth_error (splitParts (trim l)) i) as [[|x f]|] eqn:E;
      simpl; try exact Hd. exact (Hparts i _ E). }
  unfold parseLine, stripMarkers. cbn [name type distance]. repeat split.
  - set (n := trim _).
    assert (Hn : includes pipe n = false).
    { apply not_includes_trim, not_includes_dropWhile, (Hor 0). reflexivity. }
    destruct n; [reflexivity | exact Hn].
  - apply not_includes_trim, (Hor 1). reflexivity.
  - apply not_includes_trim, (Hor 2). reflexivity.
Qed.

Lemma pipe_line_fields_have_no_pipe_witness :
  includes pipe (lit "Museum: East Wing") = false
  /\ includes pipe (lit "Art - Modern") = false
  /\ includes pipe (lit "300m") = false.
Proof.
  apply (pipe_line_fields_have_no_pipe
           (lit "2. Museum: East Wing | Art - Modern | 300m")
           (mkPlace (lit "Museum: East Wing") (lit "Art - Modern") (lit "300m"))).
  - reflexivity.
  - vm_compute. left. reflexivity.
Defined.

(** X4.  Only the first three "|"-separated fields of a line are read:
    whatever follows a third "|" changes nothing. *)
Theorem fields_after_the_third_are_ignored :
  forall f0 f1 f2 rest,
    includes pipe f0 = false -> includes pipe f1 = false ->
    includes pipe f2 = false ->
    parseLine (f0 ++ pipe ++ f1 ++ pipe ++ f2 ++ pipe ++ rest)
    = parseLine (f0 ++ pipe ++ f1 ++ pipe ++ f2).
Proof.
  intros f0 f1 f2 rest H0 H1 H2.
  destruct (split_pipe_three f0 f1 f2 rest H0 H1 H2) as [_ Hlong].
  destruct (split_pipe_three f0 f1 f2 [] H0 H1 H2) as [Hshort _].
  rewrite app_nil_r in Hshort.
  rewrite (parseLine_of_parts _ f0 f1 f2 (split pipe rest)).
  - rewrite (parseLine_of_parts _ f0 f1 f2 []); [reflexivity|].
    unfold splitParts. now rewrite includes_pipe_mid.
  - unfold splitParts. now rewrite includes_pipe_mid.
Qed.

Lemma fields_after_the_third_are_ignored_witness :
  parseLine (lit "Old Bridge " ++ pipe ++ lit " Monument " ++ pipe
             ++ lit " 120m " ++ pipe ++ lit " open daily | free")
  = parseLine (lit "Old Bridge " ++ pipe ++ lit " Monument " ++ pipe
               ++ lit " 120m ").
Proof.
  apply fields_after_the_third_are_ignored; reflexivity.
Defined.

(* ------------------------------------------------------------------ *)
(** ** The required line format is read back exactly *)

Section RoundTrip.

Lemma orElse_nonempty s d : s <> [] -> orElse (Some s) d = s.
Proof. destruct s; [congruence | reflexivity]. Qed.

Lemma Forall_dropWhile (P : codeunit -> Prop) p m :
  Forall P m -> Forall P (dropWhile p m).
Proof.
  induction 1 as [|c m Hc Hm IH]; simpl; [constructor|].
  destruct (p c); [exact IH | now constructor].
Qed.

Lemma includes_pipe_cons x s :
  includes pipe (x :: s) = (124 =? x)%N || includes pipe s.
Proof. apply includes_unit_cons. Qed.

Lemma includes_pipe_app a b :
  includes pipe (a ++ b) = includes pipe a || includes pipe b.
Proof. apply includes_unit_app. Qed.

Lemma includes_newline_app a b :
  includes newline (a ++ b) = includes newline a || includes newline b.
Proof. apply includes_unit_app. Qed.

Lemma markers_have_no_pipe m :
  Forall (fun c => isMarker c = true) m -> includes pipe m = false.
Proof.
  induction 1 as [|c m Hc _ IH]; [reflexivity|].
  rewrite includes_pipe_cons, IH, orb_false_r.
  destruct (N.eqb_spec 124 c) as [<-|]; [discriminate Hc | reflexivity].
Qed.

Lemma trim_line_shape m x rn mid y :
  isWhiteSpace x = false -> isWhiteSpace y = false ->
  trim (m ++ (x :: rn) ++ mid ++ [y]) = trimStart m ++ (x :: rn) ++ mid ++ [y].
Proof.
  intros Hx Hy. unfold trim, trimStart.
  change ((x :: rn) ++ mid ++ [y]) with (x :: (rn ++ mid ++ [y])).
  rewrite (dropWhile_app_stop _ _ _ _ Hx).
  replace (dropWhile isWhiteSpace m ++ x :: rn ++ mid ++ [y])
    with ((dropWhile isWhiteSpace m ++ x :: rn ++ mid) ++ [y]).
  - now apply trimEnd_snoc_keep.
  - rewrite <- app_assoc. simpl. now rewrite <- app_assoc.
Qed.

Lemma trim_line_shape_space m x rn mid y :
  isWhiteSpace x = false -> isWhiteSpace y = false ->
  trim (m ++ (x :: rn) ++ mid ++ [y; 32%N])
  = trimStart m ++ (x :: rn) ++ mid ++ [y].
Proof.
  intros Hx Hy. unfold trim, trimStart.
  change ((x :: rn) ++ mid ++ [y; 32%N]) with (x :: (rn ++ mid ++ [y; 32%N])).
  rewrite (dropWhile_app_stop _ _ _ _ Hx).
  replace (dropWhile isWhiteSpace m ++ x :: rn ++ mid ++ [y; 32%N])
    with (((dropWhile isWhiteSpace m ++ x :: rn ++ mid) ++ [y]) ++ [32%N]).
  - rewrite trimEnd_snoc_drop by reflexivity.
    rewrite (trimEnd_snoc_keep _ _ Hy).
    rewrite <- app_assoc. simpl. now rewrite <- app_assoc.
  - rewrite <- !app_assoc. simpl. now rewrite <- !app_assoc.
Qed.

Lemma trim_formatItem m n c d :
  tidy n -> (d = [] \/ tidy d) ->
  trim (m ++ formatLine (mkPlace n c d))
  = (trimStart m ++ n ++ [32%N]) ++ pipe ++ (32%N :: c ++ [32%N]) ++ pipe
    ++ paddedDistance d.
Proof.
  intros Hn Hd. destruct (tidy_head n Hn) as (x & rn & -> & Hx).
  unfold formatLine. cbn [name type distance].
  change (lit " | ") with [32; 124; 32]%N. change pipe with [124%N].
  destruct Hd as [->|Hd].
  - transitivity (trim (m ++ (x :: rn) ++ ([32; 124; 32]%N ++ c ++ [32%N])
                          ++ [124; 32]%N)).
    + f_equal. f_equal. f_equal. simpl. f_equal. f_equal. f_equal.
      rewrite <- app_assoc. reflexivity.
    + rewrite trim_line_shape_space by (exact Hx || reflexivity).
      simpl. rewrite <- !app_assoc. simpl. rewrite <- !app_assoc. reflexivity.
  - destruct (tidy_last d Hd) as (rd & yd & -> & Hy).
    transitivity (trim (m ++ (x :: rn)
                          ++ ([32; 124; 32]%N ++ c ++ [32; 124; 32]%N ++ rd)
                          ++ [yd])).
    + f_equal. f_equal. f_equal. simpl. f_equal. f_equal. f_equal.
      rewrite <- !app_assoc. reflexivity.
    + rewrite trim_line_shape by assumption.
      assert (Hpad : paddedDistance (rd ++ [yd]) = 32%N :: rd ++ [yd])
        by (destruct rd; reflexivity).
      rewrite Hpad. simpl. rewrite <- !app_assoc. simpl.
      rewrite <- !app_assoc. reflexivity.
Qed.

Lemma split_pipe_exactly_three f0 f1 f2 :
  includes pipe f0 = false -> includes pipe f1 = false ->
  includes pipe f2 = false ->
  split pipe (f0 ++ pipe ++ f1 ++ pipe ++ f2) = [f0; f1; f2].
Proof.
  intros H0 H1 H2.
  destruct (split_pipe_three f0 f1 f2 [] H0 H1 H2) as [H _].
  now rewrite app_nil_r in H.
Qed.

(** One line in the required format, after any list markers, gives back
    the place it was written from. *)
Lemma lineCandidates_formatItem m p :
  markerRun m -> presentable p -> lineCandidates (m ++ formatLine p) = [p].
Proof.
  intros [Hm _] Hp. destruct p as [n c d]. unfold presentable in Hp.
  cbn [name type distance] in Hp.
  destruct Hp as (Hn & [Hnp _] & Hlen & Hstrip & Hc & [Hcp _] & Hd & [Hdp _]).
  rewrite lineCandidates_eq, (trim_formatItem m n c d Hn Hd).
  set (f0 := trimStart m ++ n ++ [32%N]).
  set (f1 := 32%N :: c ++ [32%N]).
  set (f2 := paddedDistance d).
  assert (Hm' : Forall (fun c => isMarker c = true) (trimStart m))
    by (apply Forall_dropWhile, Hm).
  assert (H0 : includes pipe f0 = false).
  { unfold f0. rewrite !includes_pipe_app, Hnp.
    now rewrite (markers_have_no_pipe _ Hm'). }
  assert (H1 : includes pipe f1 = false).
  { unfold f1. rewrite includes_pipe_cons, includes_pipe_app, Hcp.
    reflexivity. }
  assert (H2 : includes pipe f2 = false).
  { unfold f2. destruct d as [|y d]; [reflexivity|].
    unfold paddedDistance. rewrite includes_pipe_cons, Hdp. reflexivity. }
  assert (Hkeep : keepLine (f0 ++ pipe ++ f1 ++ pipe ++ f2) = true).
  { unfold keepLine. rewrite includes_pipe_mid. simpl orb. rewrite andb_true_r.
    apply Nat.ltb_lt. unfold f0, f1. rewrite !length_app. simpl. lia. }
  assert (Hparts : splitParts (f0 ++ pipe ++ f1 ++ pipe ++ f2) = [f0; f1; f2]).
  { unfold splitParts. rewrite includes_pipe_mid.
    now apply split_pipe_exactly_three. }
  destruct (tidy_head n Hn) as (x & rn & En & Hx).
  assert (Hmark : isMarker x = false).
  { unfold stripMarkers in Hstrip. rewrite En in Hstrip.
    now apply dropWhile_head in Hstrip. }
  assert (Hname : trim (stripMarkers (orElse (Some f0) [])) = n).
  { rewrite orElse_nonempty.
    - unfold f0, stripMarkers. rewrite En.
      change ((x :: rn) ++ [32%N]) with (x :: (rn ++ [32%N])).
      rewrite (dropWhile_app_stop _ _ _ _ Hmark), (dropWhile_all _ _ Hm').
      simpl app. change (x :: rn ++ [32%N]) with ((x :: rn) ++ [32%N]).
      rewrite <- En. apply (trim_padded n Hn).
    - unfold f0. rewrite En. now destruct (trimStart m). }
  assert (Htype : trim (orElse (Some f1) (lit "Point of Interest")) = c).
  { unfold f1. cbn [orElse]. apply (trim_padded c Hc). }
  assert (Hdist : trim (orElse (Some f2) []) = d).
  { unfold f2. destruct Hd as [->|Hd]; [reflexivity|].
    destruct (tidy_head d Hd) as (y & rd & Ed & _). rewrite Ed.
    cbn [paddedDistance orElse]. rewrite <- Ed. apply (trim_padded d Hd). }
  assert (Hname' : orElse (Some (trim (stripMarkers (orElse (Some f0) []))))
                     (lit "Interesting Place") = n).
  { rewrite Hname. apply orElse_nonempty. rewrite En. discriminate. }
  rewrite Hkeep, (parseLine_of_parts _ f0 f1 f2 [] Hparts).
  match goal with
  | |- (if keepPlace (mkPlace ?a ?b ?e) then _ else _) = _ =>
      replace a with n by (symmetry; exact Hname');
      replace b with c by (symmetry; exact Htype);
      replace e with d by (symmetry; exact Hdist)
  end.
  unfold keepPlace. cbn [name].
  replace (2 <? length n) with true; [reflexivity|].
  symmetry. now apply Nat.ltb_lt.
Qed.

Lemma formatItem_one_line m p :
  markerRun m -> presentable p -> includes newline (m ++ formatLine p) = false.
Proof.
  intros [_ Hm] Hp. destruct p as [n c d]. unfold presentable in Hp.
  cbn [name type distance] in Hp.
  destruct Hp as (_ & [_ Hn] & _ & _ & _ & [_ Hc] & _ & [_ Hd]).
  unfold formatLine. cbn [name type distance].
  rewrite !includes_newline_app, Hm, Hn, Hc, Hd. reflexivity.
Qed.

End RoundTrip.

(** X5.  A response written in the format the prompt asks for is read back
    exactly.  If every line is "NAME | TYPE | DISTANCE", possibly after list
    markers such as "1. " or "- ", where the fields are tidy (not empty, no
    white space around them, no "|", no line break; the distance may be
    missing) and the name has more than two code units and does not itself
    begin with a marker, then the parser returns exactly these places, in
    line order. *)
Theorem required_format_round_trip :
  forall items : list (jsstring * Place),
    Forall (fun item => markerRun (fst item) /\ presentable (snd item)) items ->
    parsePlaces (joinLines (map formatItem items)) = map snd items.
Proof.
  induction 1 as [|[m p] items [Hm Hp] Hrest IH]; [reflexivity|].
  cbn [fst snd] in Hm, Hp.
  assert (Hone : parsePlaces (formatItem (m, p)) = [p]).
  { unfold formatItem. cbn [fst snd].
    rewrite (parsePlaces_one_line _ (formatItem_one_line m p Hm Hp)).
    now apply lineCandidates_formatItem. }
  destruct items as [|item items].
  - exact Hone.
  - change (joinLines (map formatItem ((m, p) :: item :: items)))
      with (formatItem (m, p) ++ newline
            ++ joinLines (map formatItem (item :: items))).
    rewrite parsePlaces_app, Hone, IH. reflexivity.
Qed.

Lemma required_format_round_trip_witness :
  parsePlaces
    (joinLines
       (map formatItem
          [ (lit "1. ", mkPlace (lit "Statue") (lit "Monument") (lit "50m"));
            (lit "- ", mkPlace (lit "Park") (lit "Green Space") []) ]))
  = [ mkPlace (lit "Statue") (lit "Monument") (lit "50m");
      mkPlace (lit "Park") (lit "Green Space") [] ].
Proof.
  apply (required_format_round_trip
           [ (lit "1. ", mkPlace (lit "Statue") (lit "Monument") (lit "50m"));
             (lit "- ", mkPlace (lit "Park") (lit "Green Space") []) ]).
  unfold presentable, markerRun, tidy, plain.
  repeat match goal with
         | |- Forall _ (_ :: _) => constructor
         | |- Forall _ [] => constructor
         | |- _ /\ _ => split
         end;
    cbn [fst snd name type distance];
    first [ reflexivity | discriminate | (vm_compute; lia)
          | (left; reflexivity)
          | (right; split; [discriminate | reflexivity])
          | (vm_compute; repeat constructor) ].
Defined.

(** X6.  [fileToGenerativePart] keeps what follows the first comma of a
    data URL: for "header,payload" with no comma in either part the data is
    the payload; anything after a second comma is cut off; and an input
    without a comma leaves the data undefined. *)
Theorem generative_part_is_the_payload :
  forall header payload mimeType,
    includes comma header = false ->
    includes comma payload = false ->
    partData (fileToGenerativePart (header ++ comma ++ payload) mimeType)
    = Some payload
    /\ (forall rest,
          partData
            (fileToGenerativePart (header ++ comma ++ payload ++ comma ++ rest)
               mimeType)
          = Some payload)
    /\ partData (fileToGenerativePart header mimeType) = None
    /\ partMimeType (fileToGenerativePart (header ++ comma ++ payload) mimeType)
       = mimeType.
Proof.
  intros header payload mimeType Hh Hp. unfold fileToGenerativePart.
  cbn [partData partMimeType].
  pose proof (split_unit_absent 44%N header Hh) as E0.
  pose proof (split_unit_absent 44%N payload Hp) as E1.
  pose proof (split_unit_app 44%N header payload) as E2.
  change (split comma header = [header]) in E0.
  change (split comma payload = [payload]) in E1.
  change (split comma (header ++ comma ++ payload)
          = split comma header ++ split comma payload) in E2.
  repeat split.
  - now rewrite E2, E0, E1.
  - intros rest.
    pose proof (split_unit_app 44%N header (payload ++ comma ++ rest)) as E3.
    pose proof (split_unit_app 44%N payload rest) as E4.
    change (split comma (header ++ comma ++ payload ++ comma ++ rest)
            = split comma header ++ split comma (payload ++ comma ++ rest)) in E3.
    change (split comma (payload ++ comma ++ rest)
            = split comma payload ++ split comma rest) in E4.
    now rewrite E3, E4, E0, E1.
  - now rewrite E0.
Qed.

Lemma generative_part_is_the_payload_witness :
  partData
    (fileToGenerativePart
       (lit "data:image/jpeg;base64" ++ comma ++ lit "/9j/4AAQSkZJRg==")
       (lit "image/jpeg"))
  = Some (lit "/9j/4AAQSkZJRg==").
Proof.
  apply (generative_part_is_the_payload
           (lit "data:image/jpeg;base64") (lit "/9j/4AAQSkZJRg==")
           (lit "image/jpeg")); reflexivity.
Defined.

(* ------------------------------------------------------------------ *)
(** ** More on the handlers of the component *)

Section HandlerFacts.

Variable t : jsstring -> jsstring -> list (jsstring * jsstring) -> jsstring.

Lemma app_cons_not_nil {A} (a b : list A) (x : A) : a ++ x :: b <> [].
Proof. destruct a; discriminate. Qed.

Lemma isLoading_processOutput name0 loc details narration s :
  isLoading (fst (processOutput t name0 loc details narration s)) = false.
Proof.
  unfold processOutput. destruct details as [response|e]; cbn.
  - destruct (isTextOnly (outputFormat s)); cbn; [reflexivity|].
    destruct narration; reflexivity.
  - reflexivity.
Qed.

End HandlerFacts.

(** X7.  A discovery ends either with places on display and no error, or with
    an error and no places, never with both or neither; in every case the
    result of the previous landmark (name, history, audio, citations) is
    cleared and the loading flag is down.  This holds whatever the
    geolocation and the provider do. *)
Theorem discovery_shows_places_or_an_error :
  forall t geo provider s,
    let s' := fst (handleDiscoverNearby t geo provider s) in
    ((nearbyPlaces s' <> [] /\ error s' = [])
     \/ (nearbyPlaces s' = [] /\ error s' <> []))
    /\ landmarkName s' = [] /\ history s' = [] /\ audioData s' = None
    /\ citations s' = [] /\ isLoading s' = false.
Proof.
  intros t geo provider s s'. subst s'. unfold handleDiscoverNearby.
  destruct geo as [|coords|msg].
  - cbn. split; [right; split; [reflexivity | discriminate] | repeat split].
  - rewrite settled_fetchNearby.
    destruct provider as [response|e].
    + destruct (parsePlaces (orElse (text response) [])) as [|p ps] eqn:E; cbn.
      * split; [right; split; [reflexivity | discriminate] | repeat split].
      * split; [left; split; [discriminate | reflexivity] | repeat split].
    + cbn. split; [right; split; [reflexivity | discriminate] | repeat split].
  - cbn. split; [|repeat split]. right. split; [reflexivity|].
    apply app_cons_not_nil.
Qed.

(** X8.  [processOutput] asks for the details first and for the narration
    only when the details arrived and the format is not text only.  When the
    details call fails, its message (or the fallback) becomes the error and
    history, citations and audio stay as they were; when it succeeds, the
    error stays as it was (a failed narration is not an error).  The loading
    flag is down afterwards in every case. *)
Theorem processOutput_requests_and_errors :
  forall t name0 loc narration s,
    (forall e,
        let r := processOutput t name0 loc (Rejected e) narration s in
        snd r = [DetailsRequest name0 (language s) loc]
        /\ error (fst r) = messageOr t (language s) e
        /\ history (fst r) = history s
        /\ citations (fst r) = citations s
        /\ audioData (fst r) = audioData s
        /\ isLoading (fst r) = false)
    /\ (forall response,
          let r := processOutput t name0 loc (Fulfilled response) narration s in
          let text0 :=
            orElse (text response)
              (lit "Historical information unavailable at the moment.") in
          snd r
          = DetailsRequest name0 (language s) loc
            :: (if isTextOnly (outputFormat s) then []
                else [NarrationRequest text0 (language s)])
          /\ history (fst r) = text0
          /\ citations (fst r) = citationsOf response
          /\ audioData (fst r)
             = (if isTextOnly (outputFormat s) then audioData s
                else Some match narration with
                          | Fulfilled audio => orElse (audioPayload audio) []
                          | Rejected _ => []
                          end)
          /\ error (fst r) = error s
          /\ isLoading (fst r) = false).
Proof.
  intros t name0 loc narration s. split.
  - intros e. cbn. repeat split.
  - intros response. unfold processOutput. cbn.
    destruct (isTextOnly (outputFormat s)) eqn:Ef; cbn; [repeat split|].
    destruct narration as [audio|e]; cbn; repeat split.
Qed.

(** X9.  [selectPlace] always empties the list of places and records the
    chosen name.  If the details call then fails, the history and audio of
    the previous landmark are still in place, so the result card is shown
    under the new name whenever the previous landmark had a history or an
    audio. *)
Theorem selectPlace_keeps_old_result_on_failure :
  forall t name0 details narration s,
    nearbyPlaces (fst (selectPlace t name0 details narration s)) = []
    /\ landmarkName (fst (selectPlace t name0 details narration s)) = name0
    /\ isLoading (fst (selectPlace t name0 details narration s)) = false
    /\ forall e,
         let s' := fst (selectPlace t name0 (Rejected e) narration s) in
         history s' = history s
         /\ audioData s' = audioData s
         /\ error s' = messageOr t (language s) e
         /\ rendersResultCard s'
            = truthy (Some name0)
              && (truthy (Some (history s)) || truthy (audioData s)).
Proof.
  intros t name0 details narration s. unfold selectPlace. repeat split.
  - unfold processOutput. destruct details as [response|e]; cbn; [|reflexivity].
    destruct (isTextOnly (outputFormat s)); cbn; [reflexivity|].
    destruct narration; reflexivity.
  - unfold processOutput. destruct details as [response|e]; cbn; [|reflexivity].
    destruct (isTextOnly (outputFormat s)); cbn; [reflexivity|].
    destruct narration; reflexivity.
  - apply isLoading_processOutput.
  - unfold rendersResultCard. cbn. now rewrite andb_true_r.
Qed.

(** X10.  [handleLoadMore] touches nothing but the list of places, its own
    loading flag and the error: the landmark, its history, audio and
    citations, the language, the format, the location and the main loading
    flag are as before.  Without a location it does nothing and asks
    nothing.  With one, a failing provider leaves the list as it was and
    reports "Erro ao carregar mais: " followed by the failure's message (or
    the fallback), while a provider that answers clears the error. *)
Theorem loadMore_frame_and_failure :
  forall t provider s,
    let r := handleLoadMore t provider s in
    (landmarkName (fst r) = landmarkName s /\ history (fst r) = history s
     /\ audioData (fst r) = audioData s /\ citations (fst r) = citations s
     /\ language (fst r) = language s /\ outputFormat (fst r) = outputFormat s
     /\ location (fst r) = location s /\ isLoading (fst r) = isLoading s
     /\ loadingStep (fst r) = loadingStep s)
    /\ (location s = None -> r = (s, []))
    /\ (forall loc, location s = Some loc ->
          isLoadingMore (fst r) = false
          /\ match provider with
             | Rejected e =>
                 nearbyPlaces (fst r) = nearbyPlaces s
                 /\ error (fst r)
                    = lit "Erro ao carregar mais: " ++ messageOr t (language s) e
             | Fulfilled _ => error (fst r) = []
             end).
Proof.
  intros t provider s r. subst r. unfold handleLoadMore, loadMoreStart.
  destruct (location s) as [loc|] eqn:El.
  - rewrite settled_fetchNearby. unfold loadMoreFinish.
    destruct provider as [response|e].
    + destruct (length (parsePlaces (orElse (text response) [])) =? 0);
        cbn; repeat split; try assumption; try congruence.
    + cbn. repeat split; try assumption; try congruence.
  - cbn. repeat split; try assumption; try reflexivity; try congruence.
Qed.

Lemma loadMore_frame_and_failure_witness :
  nearbyPlaces
    (fst (handleLoadMore untranslated (Rejected (mkError (Some (lit "quota"))))
            statueSession))
  = nearbyPlaces statueSession
  /\ error
       (fst (handleLoadMore untranslated (Rejected (mkError (Some (lit "quota"))))
               statueSession))
     = lit "Erro ao carregar mais: quota".
Proof.
  pose proof (loadMore_frame_and_failure untranslated
                (Rejected (mkError (Some (lit "quota")))) statueSession) as H.
  cbv zeta in H. destruct H as (_ & _ & H).
  destruct (H (mkCoords 40712800 (-74006000)) eq_refl) as [_ [Hl He]].
  split; [exact Hl | exact He].
Defined.

(** X11.  An image upload survives a failed or missing geolocation: the
    analysis is still awaited, the details are asked for at the position
    just obtained or else at the location stored earlier, and no error is
    reported for it.  A failed analysis is reported with its message (or the
    fallback) and stops the flow before any further provider call.  The
    list of places is empty and the loading flag is down afterwards in every
    case. *)
Theorem imageUpload_location_is_optional :
  forall t image geo details narration s,
    let here :=
      match geo with
      | GeoPosition coords => Some coords
      | _ => location s
      end in
    (forall e,
        let r := handleImageUpload t image geo (Rejected e) details narration s in
        snd r = []
        /\ error (fst r) = messageOr t (language s) e
        /\ landmarkName (fst r) = [] /\ history (fst r) = []
        /\ nearbyPlaces (fst r) = [] /\ location (fst r) = here
        /\ isLoading (fst r) = false)
    /\ (forall a,
          let r :=
            handleImageUpload t image geo (Fulfilled a) details narration s in
          landmarkName (fst r) = analysedLandmark a
          /\ hd_error (snd r)
             = Some (DetailsRequest (analysedLandmark a) (language s) here)
          /\ nearbyPlaces (fst r) = [] /\ location (fst r) = here
          /\ isLoading (fst r) = false)
    /\ (forall a response,
          error
            (fst (handleImageUpload t image geo (Fulfilled a)
                    (Fulfilled response) narration s))
          = []).
Proof.
  intros t image geo details narration s here. subst here.
  split; [|split].
  - intros e. destruct geo; cbn; repeat split.
  - intros a. unfold handleImageUpload.
    destruct geo as [|coords|msg]; unfold processOutput;
      destruct details as [response|e]; cbn;
      try (destruct (isTextOnly (outputFormat s)); cbn;
           [| destruct narration; cbn]);
      repeat split; reflexivity.
  - intros a response. unfold handleImageUpload.
    destruct geo as [|coords|msg]; unfold processOutput; cbn;
      (destruct (isTextOnly (outputFormat s)); cbn;
       [| destruct narration; cbn]); reflexivity.
Qed.

(** X12.  The page takes its two-column layout exactly when some panel is
    rendered: the spinner, the error box, the list of places or the result
    card. *)
Theorem hasResults_iff_a_panel_is_rendered :
  forall s,
    hasResults s
    = rendersSpinner s || rendersError s || rendersPlaces s
      || rendersResultCard s.
Proof.
  intros s. unfold hasResults, rendersSpinner, rendersError, rendersPlaces,
    rendersResultCard.
  destruct (isLoading s); [reflexivity|]. cbn.
  now rewrite !andb_true_r.
Qed.

Section CitationFacts.

Lemma mapsUri_nonempty c u : mapsUri c = Some u -> u <> [].
Proof.
  unfold mapsUri. destruct (maps c) as [link|]; [|discriminate].
  destruct (uri link) as [[|x v]|]; try discriminate.
  intros H. injection H as <-. discriminate.
Qed.

End CitationFacts.

(** X13.  The "real photos" link is the maps address of the first citation
    that has one: it is never empty, the citations before it have none, and
    there is no link exactly when no citation has a maps address (web
    citations never provide it). *)
Theorem realPhotosLink_is_first_maps_uri :
  forall cits,
    match realPhotosLink cits with
    | Some u =>
        u <> []
        /\ exists before c after,
             cits = before ++ c :: after
             /\ mapsUri c = Some u
             /\ Forall (fun b => mapsUri b = None) before
    | None => Forall (fun c => mapsUri c = None) cits
    end.
Proof.
  induction cits as [|c cits IH]; [constructor|].
  unfold realPhotosLink in *. cbn [find].
  destruct (hasMapsUri c) eqn:Eh; unfold hasMapsUri in Eh.
  - destruct (mapsUri c) as [u|] eqn:E; [|discriminate Eh].
    split; [exact (mapsUri_nonempty c u E)|].
    exists [], c, cits. repeat split; [exact E | constructor].
  - destruct (mapsUri c) as [u|] eqn:E; [discriminate Eh|].
    destruct (match find hasMapsUri cits with
              | Some c' => mapsUri c'
              | None => None
              end) as [u|].
    + destruct IH as [Hu (before & c0 & after & -> & Hc0 & Hb)].
      split; [exact Hu|].
      exists (c :: before), c0, after. repeat split; [exact Hc0|].
      now constructor.
    + now constructor.
Qed.

(* ------------------------------------------------------------------ *)
(** ** More on the narration player *)

Module PlayerMore.
Import AudioPlayer PlayerTraces PlayerFacts.

Lemma length_updateNth {A} n (f : A -> A) l :
  length (updateNth n f l) = length l.
Proof.
  revert n. induction l as [|x l IH]; intros [|n]; simpl; auto.
Qed.

Lemma sounding_updateNth_le f h ns :
  (forall x, isSounding (f x) = false) ->
  length (filter isSounding (updateNth h f ns))
  <= length (filter isSounding ns).
Proof.
  intros Hf. revert h. induction ns as [|x ns IH]; intros [|h]; simpl;
    try lia.
  - rewrite Hf. destruct (isSounding x); simpl; lia.
  - specialize (IH h). destruct (isSounding x); simpl; lia.
Qed.

Lemma unmounted_step p ev :
  mounted p = false ->
  mounted (step p ev) = false
  /\ isPlaying (step p ev) = isPlaying p
  /\ isReady (step p ev) = isReady p
  /\ length (nodes (step p ev)) = length (nodes p)
  /\ length (activeHandles (step p ev)) <= length (activeHandles p).
Proof.
  destruct p as [pl rd c r b ns dc m lg pr]. simpl. intros ->.
  destruct ev as [d|i|i e| |h|]; simpl;
    try (repeat split; (reflexivity || lia)).
  - unfold decodeResolved. simpl.
    destruct (nth_error dc i); simpl; repeat split; (reflexivity || lia).
  - unfold decodeRejected. simpl.
    destruct (nth_error dc i); simpl; repeat split; (reflexivity || lia).
  - unfold endedEvent. simpl.
    destruct (nth_error ns h) as [n|];
      [|simpl; repeat split; (reflexivity || lia)].
    destruct (nodeState n); simpl; repeat split;
      try reflexivity; try lia; try apply length_updateNth;
      unfold activeHandles; simpl;
      now apply sounding_updateNth_le.
Qed.

(** X15.  A torn-down player is inert: whatever events still arrive after
    the unmount (late decodings, [ended] notifications, stray clicks), it
    stays unmounted, its two flags keep their values, no node is created,
    and the number of sounding nodes never grows. *)
Theorem unmounted_player_is_inert :
  forall trace p,
    mounted p = false ->
    mounted (run trace p) = false
    /\ isPlaying (run trace p) = isPlaying p
    /\ isReady (run trace p) = isReady p
    /\ length (nodes (run trace p)) = length (nodes p)
    /\ length (activeHandles (run trace p)) <= length (activeHandles p).
Proof.
  induction trace as [|ev trace IH]; intros p Hm.
  - simpl. repeat split; [exact Hm | lia].
  - destruct (unmounted_step p ev Hm) as (Hm' & Hp & Hr & Hn & Ha).
    destruct (IH (step p ev) Hm') as (H1 & H2 & H3 & H4 & H5).
    simpl. repeat split; [exact H1 | congruence | congruence | lia | lia].
Qed.

Lemma unmounted_player_is_inert_witness :
  length
    (nodes
       (run [Click; Submit otherClip; Ended 0; DecodeResolved 0; Click]
          (run [Submit clip; DecodeResolved 0; Click; Unmount] initial)))
  = 1.
Proof.
  apply (unmounted_player_is_inert
           [Click; Submit otherClip; Ended 0; DecodeResolved 0; Click]
           (run [Submit clip; DecodeResolved 0; Click; Unmount] initial)).
  reflexivity.
Defined.

Lemma submitted_snoc trace ev :
  submitted (trace ++ [ev])
  = submitted trace ++ match ev with Submit d => [d] | _ => [] end.
Proof.
  induction trace as [|e trace IH]; simpl.
  - destruct ev; reflexivity.
  - destruct e; simpl; now rewrite IH.
Qed.

Lemma decodedFromTrace_snoc trace ev b :
  decodedFromTrace trace b -> decodedFromTrace (trace ++ [ev]) b.
Proof.
  intros (Hin & Hrest). split; [|exact Hrest].
  rewrite submitted_snoc. apply in_or_app. now left.
Qed.

Lemma Forall_removeNth {A} (P : A -> Prop) n l :
  Forall P l -> Forall P (removeNth n l).
Proof.
  intros H. revert n. induction H as [|x l Hx Hl IH]; intros [|n]; simpl;
    try constructor; auto.
Qed.

Lemma provenance_intro trace p :
  Forall (fun d => In d (submitted trace) /\ d <> []) (decoding p) ->
  (forall b, audioBufferRef p = Some b -> decodedFromTrace trace b) ->
  Forall (fun n => decodedFromTrace trace (buffer n)) (nodes p) ->
  provenance trace p.
Proof. intros Hd Hb Hn. split; [exact Hd | split; [exact Hb | exact Hn]]. Qed.

Lemma provenance_weaken trace ev p :
  provenance trace p -> provenance (trace ++ [ev]) p.
Proof.
  intros (Hd & Hb & Hn). apply provenance_intro.
  - eapply Forall_impl; [|exact Hd]. intros d [Hin Hne]. split; [|exact Hne].
    rewrite submitted_snoc. apply in_or_app. now left.
  - intros b Hb'. apply decodedFromTrace_snoc. now apply Hb.
  - eapply Forall_impl; [|exact Hn]. intros n. apply decodedFromTrace_snoc.
Qed.

Lemma provenance_nodes_update trace f h ns :
  (forall n, buffer (f n) = buffer n) ->
  Forall (fun n => decodedFromTrace trace (buffer n)) ns ->
  Forall (fun n => decodedFromTrace trace (buffer n)) (updateNth h f ns).
Proof.
  intros Hf. apply Forall_updateNth. intros n Hn. now rewrite Hf.
Qed.

Lemma buffer_halt n : buffer (halt n) = buffer n.
Proof. destruct n as [b o []]; reflexivity. Qed.

Lemma provenance_cleanup trace p :
  provenance trace p -> provenance trace (cleanup p).
Proof.
  intros (Hd & Hb & Hn). unfold cleanup.
  destruct (audioSourceRef p); apply provenance_intro; try assumption.
  simpl. apply provenance_nodes_update; [apply buffer_halt | exact Hn].
Qed.

Lemma provenance_step trace ev p :
  provenance trace p -> provenance (trace ++ [ev]) (step p ev).
Proof.
  intros H. destruct ev as [d|i|i e| |h|]; simpl.
  - (* Submit *)
    destruct (mounted p) eqn:Em; [|now apply provenance_weaken].
    destruct (submit_cases d p) as [-> | ->]; [now apply provenance_weaken|].
    apply provenance_cleanup in H.
    apply (provenance_weaken _ (Submit d)) in H.
    destruct (cleanup p) as [pl rd c r b ns dc m lg pr].
    destruct H as (Hd & Hb & Hn). simpl in *.
    assert (Hnew : In d (submitted (trace ++ [Submit d]))).
    { rewrite submitted_snoc. apply in_or_app. right. now left. }
    unfold effect. destruct c as [c|], d as [|x d], m;
      apply provenance_intro; simpl; try assumption;
      (apply Forall_app; split; [assumption|]);
      (constructor; [|constructor]); (split; [exact Hnew | discriminate]).
  - (* DecodeResolved *)
    apply (provenance_weaken _ (DecodeResolved i)) in H.
    destruct p as [pl rd c r b ns dc m lg pr]. destruct H as (Hd & Hb & Hn).
    unfold decodeResolved. simpl in *.
    destruct (nth_error dc i) as [payload|] eqn:E;
      [|apply provenance_intro; assumption].
    assert (Hp : In payload (submitted (trace ++ [DecodeResolved i]))
                 /\ payload <> []).
    { apply nth_error_In in E. rewrite Forall_forall in Hd. now apply Hd. }
    destruct m; apply provenance_intro; simpl;
      try (now apply Forall_removeNth); try assumption;
      intros b' Hb'; injection Hb' as <-;
      (split; [|split; [|split]]); simpl; tauto.
  - (* DecodeRejected *)
    apply (provenance_weaken _ (DecodeRejected i e)) in H.
    destruct p as [pl rd c r b ns dc m lg pr]. destruct H as (Hd & Hb & Hn).
    unfold decodeRejected. simpl in *.
    destruct (nth_error dc i); apply provenance_intro; simpl; try assumption.
    now apply Forall_removeNth.
  - (* Click *)
    apply (provenance_weaken _ Click) in H.
    destruct (mounted p) eqn:Em; [|exact H].
    destruct p as [pl rd c r b ns dc m lg pr]. destruct H as (Hd & Hb & Hn).
    simpl in *. subst m. unfold handlePlayPause. simpl.
    destruct rd; [|apply provenance_intro; assumption].
    destruct c as [c|]; [|apply provenance_intro; assumption].
    destruct b as [b|]; [|apply provenance_intro; assumption].
    destruct pl.
    + destruct r as [h|]; apply provenance_intro; simpl; try assumption.
      apply provenance_nodes_update; [apply buffer_halt | exact Hn].
    + apply provenance_intro; simpl; try assumption.
      apply Forall_app. split; [exact Hn|].
      constructor; [|constructor]. simpl. now apply Hb.
  - (* Ended *)
    apply (provenance_weaken _ (Ended h)) in H.
    destruct p as [pl rd c r b ns dc m lg pr]. destruct H as (Hd & Hb & Hn).
    unfold endedEvent. simpl in *.
    destruct (nth_error ns h) as [n|]; [|apply provenance_intro; assumption].
    destruct (nodeState n), m; apply provenance_intro; simpl; try assumption;
      (apply provenance_nodes_update; [reflexivity | exact Hn]).
  - (* Unmount *)
    apply (provenance_weaken _ Unmount) in H.
    destruct (mounted p) eqn:Em; [|exact H].
    apply provenance_cleanup in H.
    destruct (cleanup p). exact H.
Qed.

(** X16.  The player only ever holds what it was given.  After any events,
    the decoded buffer, and the buffer of every node that was created, was
    decoded from a non-empty payload that had been submitted before, at
    24 kHz on one channel. *)
Theorem player_buffers_come_from_submissions :
  forall trace,
    (forall b,
        audioBufferRef (run trace initial) = Some b -> decodedFromTrace trace b)
    /\ Forall (fun n => decodedFromTrace trace (buffer n))
         (nodes (run trace initial)).
Proof.
  intros trace.
  assert (H : provenance trace (run trace initial)).
  { induction trace as [|ev trace IH] using rev_ind.
    - apply provenance_intro; simpl; [constructor | discriminate | constructor].
    - rewrite run_snoc. now apply provenance_step. }
  destruct H as (_ & Hb & Hn). now split.
Qed.

Lemma player_buffers_come_from_submissions_witness :
  decodedFromTrace
    [Submit clip; Submit otherClip; DecodeResolved 1; Click; Submit []]
    (mkBuffer otherClip 24000 1).
Proof.
  apply (player_buffers_come_from_submissions
           [Submit clip; Submit otherClip; DecodeResolved 1; Click; Submit []]).
  reflexivity.
Defined.

Lemma quiet_existsb ns : quiet ns -> existsb isSounding ns = false.
Proof.
  induction 1 as [|n ns Hn _ IH]; [reflexivity|]. simpl. now rewrite Hn.
Qed.

(** X17.  What a new value of the prop does to a mounted player that is not
    decoding and keeps track of its handle.  A non-empty payload other than
    the one the effect last ran for makes it not ready at once (phase
    Decoding, nothing sounds, the button does nothing), and a further render
    with that payload changes nothing.  If the decoding succeeds, the player
    is ready with the buffer of that payload.  If it fails, the failure is
    logged and nothing is thrown, but the player stays not ready (phase
    Empty, button dead) and keeps whatever buffer it had. *)
Theorem submission_outcomes :
  forall p d e,
    mounted p = true -> decoding p = [] -> tracked p ->
    d <> [] -> audioDataProp p <> Some d ->
    let p1 := step p (Submit d) in
    (isReady p1 = false /\ phase p1 = Decoding /\ step p1 Click = p1
     /\ decoding p1 = [d] /\ audioBufferRef p1 = audioBufferRef p
     /\ activeHandles p1 = [] /\ step p1 (Submit d) = p1)
    /\ (let p2 := step p1 (DecodeResolved 0) in
        isReady p2 = true /\ phase p2 = Ready /\ decoding p2 = []
        /\ audioBufferRef p2 = Some (mkBuffer d 24000 1)
        /\ consoleLog p2 = consoleLog p)
    /\ (let p2 := step p1 (DecodeRejected 0 e) in
        isReady p2 = false /\ phase p2 = Empty /\ step p2 Click = p2
        /\ audioBufferRef p2 = audioBufferRef p
        /\ consoleLog p2
           = consoleLog p
             ++ [ConsoleError (lit "Failed to decode audio data") e]).
Proof.
  intros p d e Hm Hdc Ht Hd Hnew.
  assert (Hq := tracked_cleanup_quiet p Ht).
  assert (Hx := quiet_existsb _ Hq).
  assert (Ha := quiet_no_active _ Hq).
  assert (Hs := sameString_refl d).
  cbv zeta. cbn [step]. rewrite Hm, (submit_new d p Hnew).
  destruct p as [pl rd c r b ns dc m lg pr]. simpl in Hm, Hdc. subst m dc.
  destruct d as [|x d]; [congruence|].
  unfold phase, activeHandles, submit.
  destruct c as [c|], r as [h|]; cbn in Hx, Ha, Hs |- *;
    rewrite ?Hx, ?Ha, ?Hs; repeat split.
Qed.

Lemma submission_outcomes_witness :
  phase
    (step (step (run [Submit clip; DecodeResolved 0] initial) (Submit otherClip))
       (DecodeRejected 0 (mkError (Some (lit "bad base64")))))
  = Empty.
Proof.
  apply (submission_outcomes (run [Submit clip; DecodeResolved 0] initial)
           otherClip (mkError (Some (lit "bad base64")))).
  - reflexivity.
  - reflexivity.
  - apply quiet_tracked. constructor.
  - discriminate.
  - discriminate.
Defined.

(** *** The phases, when every event comes at a calm moment *)

Lemma existsb_quiet ns : existsb isSounding ns = false -> quiet ns.
Proof.
  induction ns as [|n ns IH]; simpl; [constructor|].
  intros H. apply orb_false_iff in H as [Hn Hns].
  constructor; [exact Hn | exact (IH Hns)].
Qed.

Lemma quiet_halt h ns : quiet ns -> quiet (updateNth h halt ns).
Proof. apply Forall_updateNth. intros x _. apply halt_silent. Qed.

Lemma removeNth_single {A} i (l : list A) x :
  length l <= 1 -> nth_error l i = Some x -> removeNth i l = [].
Proof.
  destruct l as [|y [|z l]]; simpl; intros Hl Hn.
  - reflexivity.
  - destruct i as [|[|i]]; [reflexivity | discriminate | discriminate].
  - lia.
Qed.

Lemma nth_error_nonempty {A} i (l : list A) x :
  nth_error l i = Some x -> l <> [].
Proof. intros H ->. destruct i; discriminate. Qed.

Lemma calm_timely p ev : calm p ev -> timely p ev.
Proof. destruct ev; simpl; auto. Qed.

Lemma coherent_step p ev : coherent p -> calm p ev -> coherent (step p ev).
Proof.
  intros Hco Hc. destruct ev as [d|i|i e| |h|]; simpl.
  - (* Submit *)
    destruct (mounted p) eqn:Em; [|exact Hco].
    destruct Hc as [Hsame | [Hdc Hpl]];
      [rewrite (submit_same d p Hsame); exact Hco |].
    destruct (submit_cases d p) as [-> | ->]; [exact Hco|].
    destruct Hco as (Hl & Hd & Hp).
    destruct p as [pl rd c r b ns dc m lg pr]. simpl in *. subst m dc pl.
    unfold coherent, cleanup, effect.
    destruct c as [c|], r as [h|], d as [|x d]; simpl;
      (split; [lia | split; [congruence | congruence]]).
  - (* DecodeResolved *)
    destruct Hco as (Hl & Hd & Hp).
    destruct p as [pl rd c r b ns dc m lg pr]. simpl in *.
    unfold decodeResolved. simpl.
    destruct (nth_error dc i) as [payload|] eqn:E; [|exact (conj Hl (conj Hd Hp))].
    rewrite (removeNth_single _ _ _ Hl E).
    assert (Hrd := Hd (nth_error_nonempty _ _ _ E)). subst rd.
    unfold coherent.
    destruct m; simpl; (split; [lia | split; [congruence|]]).
    + intros _ Hpl. destruct (Hp eq_refl Hpl) as [Hr _]. discriminate.
    + congruence.
  - (* DecodeRejected *)
    destruct Hco as (Hl & Hd & Hp).
    destruct p as [pl rd c r b ns dc m lg pr]. simpl in *.
    unfold decodeRejected. simpl.
    destruct (nth_error dc i) as [payload|] eqn:E; [|exact (conj Hl (conj Hd Hp))].
    rewrite (removeNth_single _ _ _ Hl E). unfold coherent. simpl.
    split; [lia | split; [congruence | exact Hp]].
  - (* Click *)
    destruct (mounted p) eqn:Em; [|exact Hco].
    destruct Hco as (Hl & Hd & Hp).
    destruct p as [pl rd c r b ns dc m lg pr]. simpl in *. subst m.
    unfold coherent, handlePlayPause. simpl.
    destruct rd; [|exact (conj Hl (conj Hd Hp))]. destruct c as [c|]; [|exact (conj Hl (conj Hd Hp))].
    destruct b as [b|]; [|exact (conj Hl (conj Hd Hp))].
    destruct pl.
    + destruct r as [h0|]; simpl;
        (split; [exact Hl | split; [exact Hd | congruence]]).
    + simpl. split; [exact Hl | split; [exact Hd |]].
      intros _ _. split; [reflexivity|].
      rewrite existsb_app. simpl. apply orb_true_r.
  - (* Ended *)
    destruct Hco as (Hl & Hd & Hp).
    destruct p as [pl rd c r b ns dc m lg pr]. simpl in *.
    unfold coherent, endedEvent. simpl.
    destruct (nth_error ns h) as [n|]; [|exact (conj Hl (conj Hd Hp))].
    destruct (nodeState n); [| |exact (conj Hl (conj Hd Hp))];
      (destruct m; simpl; (split; [exact Hl | split; [exact Hd | congruence]])).
  - (* Unmount *)
    destruct (mounted p) eqn:Em; [|exact Hco].
    destruct Hco as (Hl & Hd & Hp). unfold coherent, cleanup.
    destruct (audioSourceRef p); simpl;
      (split; [exact Hl | split; [exact Hd | congruence]]).
Qed.

Lemma coherent_initial : coherent initial.
Proof. split; [simpl; lia | split; simpl; congruence]. Qed.

Lemma calmly_run trace p :
  wellFormed p -> tracked p -> coherent p -> calmly p trace ->
  wellFormed (run trace p) /\ tracked (run trace p) /\ coherent (run trace p).
Proof.
  revert p. induction trace as [|ev trace IH]; intros p Hw Ht Hco Hc.
  - exact (conj Hw (conj Ht Hco)).
  - destruct Hc as [Hev Hc]. simpl. apply IH; [| | |exact Hc].
    + now apply wellFormed_step.
    + apply tracked_step; [exact Ht | now apply calm_timely].
    + now apply coherent_step.
Qed.

Lemma existsb_sounding_nth ns :
  existsb isSounding ns = true ->
  exists i n, nth_error ns i = Some n /\ isSounding n = true.
Proof.
  intros H. apply existsb_exists in H as (n & Hin & Hs).
  apply In_nth_error in Hin as [i Hi]. exists i, n. now split.
Qed.

(** X18.  The phases of the narration, on the traces where they hold.  When
    every event comes at a calm moment ([ended] in good time; a new value
    of the prop only while the component neither decodes nor shows
    "pause"), then in every state that is reached: the empty payload leaves
    phase Empty as it is; a click in Empty or Decoding changes nothing; a
    click in Ready creates one node on the decoded buffer, started at offset
    0, and the phase is Playing; when the sounding node reaches the end of
    its clip the phase is Ready again; a click in Playing stops the node,
    nothing sounds and the phase is Ready; and every node ever created was
    started at offset 0, so a later play starts over. *)
Theorem narration_phases_on_calm_traces :
  forall trace,
    calmly initial trace ->
    let p := run trace initial in
    (phase p = Empty -> phase (step p (Submit [])) = Empty)
    /\ (phase p = Empty \/ phase p = Decoding -> step p Click = p)
    /\ (mounted p = true -> phase p = Ready ->
          phase (step p Click) = Playing
          /\ exists buf,
               audioBufferRef p = Some buf
               /\ nodes (step p Click) = nodes p ++ [mkNode buf 0 Sounding]
               /\ audioSourceRef (step p Click) = Some (length (nodes p)))
    /\ (mounted p = true -> phase p = Playing ->
          forall h n,
            nth_error (nodes p) h = Some n -> nodeState n = Sounding ->
            phase (step p (Ended h)) = Ready
            /\ audioSourceRef (step p (Ended h)) = None)
    /\ (mounted p = true -> phase p = Playing ->
          phase (step p Click) = Ready
          /\ audioSourceRef (step p Click) = None
          /\ activeHandles (step p Click) = [])
    /\ Forall (fun n => startOffset n = 0%N) (nodes p).
Proof.
  intros trace Hcalm p.
  destruct (calmly_run trace initial wellFormed_initial tracked_initial
              coherent_initial Hcalm)
    as ((Hr & Hd & Ho) & (Ha & Hq) & (Hl & Hn & Hp)).
  fold p in Hr, Hd, Ho, Ha, Hq, Hl, Hn, Hp. clearbody p. clear trace Hcalm.
  destruct p as [pl rd c r b ns dc m lg pr]. unfold phase. simpl in *.
  split; [|split; [|split; [|split; [|split]]]].
  - destruct dc; [|discriminate].
    destruct (existsb isSounding ns) eqn:Ex; [discriminate|].
    destruct rd; [discriminate|]. intros _.
    destruct m; [|simpl; now rewrite Ex].
    unfold submit. simpl. destruct (sameProp pr []); [simpl; now rewrite Ex|].
    apply existsb_quiet in Ex.
    unfold cleanup, effect.
    destruct c as [c|], r as [h|]; simpl; rewrite quiet_existsb;
      try reflexivity; try assumption; now apply quiet_halt.
  - intros H. destruct m; [|reflexivity]. unfold handlePlayPause. simpl.
    destruct dc as [|x dc].
    + destruct (existsb isSounding ns), rd, H; try discriminate; reflexivity.
    + rewrite Hn by discriminate. reflexivity.
  - intros -> H. destruct dc; [|discriminate].
    destruct (existsb isSounding ns) eqn:Ex; [discriminate|].
    destruct rd; [|discriminate].
    destruct pl; [destruct (Hp eq_refl eq_refl); discriminate|].
    destruct (Hr eq_refl) as [Hc Hb].
    destruct c as [c|]; [|congruence]. destruct b as [b|]; [|congruence].
    unfold handlePlayPause. simpl. split.
    + rewrite existsb_app. simpl. now rewrite orb_true_r.
    + exists b. repeat split.
  - intros -> H h n Hnth Hs. destruct dc; [|discriminate].
    destruct (existsb isSounding ns) eqn:Ex; [|destruct rd; discriminate].
    assert (Hsn : isSounding n = true) by (unfold isSounding; now rewrite Hs).
    assert (Hpl : pl = true).
    { destruct pl; [reflexivity|]. exfalso.
      apply (quiet_not_sounding ns h n); [apply Hq; now right | | ]; assumption. }
    subst pl. destruct (Hp eq_refl eq_refl) as [-> _].
    unfold endedEvent. simpl. rewrite Hnth, Hs. simpl.
    rewrite quiet_existsb; [split; reflexivity|].
    apply quiet_updateNth; [reflexivity|].
    intros i n' Hi Hs'.
    pose proof (Ha i n' Hi Hs') as H1. pose proof (Ha h n Hnth Hsn) as H2.
    congruence.
  - intros -> H. destruct dc; [|discriminate].
    destruct (existsb isSounding ns) eqn:Ex; [|destruct rd; discriminate].
    destruct (existsb_sounding_nth ns Ex) as (i & n & Hnth & Hsn).
    assert (Hpl : pl = true).
    { destruct pl; [reflexivity|]. exfalso.
      apply (quiet_not_sounding ns i n); [apply Hq; now right | | ]; assumption. }
    subst pl. destruct (Hp eq_refl eq_refl) as [-> _].
    destruct (Hr eq_refl) as [Hc Hb].
    destruct c as [c|]; [|congruence]. destruct b as [b|]; [|congruence].
    pose proof (Ha i n Hnth Hsn) as Hi. subst r.
    assert (Hquiet : quiet (updateNth i halt ns)).
    { apply quiet_updateNth; [apply halt_silent|].
      intros j n' Hj Hs'. specialize (Ha j n' Hj Hs'). congruence. }
    unfold handlePlayPause, activeHandles. simpl.
    rewrite (quiet_existsb _ Hquiet), (quiet_no_active _ Hquiet).
    repeat split.
  - exact Ho.
Qed.

Lemma narration_phases_on_calm_traces_witness :
  phase (step (run [Submit clip; DecodeResolved 0] initial) Click) = Playing
  /\ phase
       (step (run [Submit clip; DecodeResolved 0; Click; Click; Ended 0; Click]
                initial) (Ended 1))
     = Ready
  /\ phase
       (step (run [Submit clip; DecodeResolved 0; Click; Click; Ended 0; Click]
                initial) Click)
     = Ready
  /\ step (run [Submit clip] initial) Click = run [Submit clip] initial.
Proof.
  split; [|split; [|split]].
  - apply (narration_phases_on_calm_traces [Submit clip; DecodeResolved 0]);
      [simpl; intuition | reflexivity | reflexivity].
  - apply (narration_phases_on_calm_traces
             [Submit clip; DecodeResolved 0; Click; Click; Ended 0; Click])
      with (h := 1) (n := mkNode (mkBuffer clip 24000 1) 0 Sounding);
      [simpl; intuition | reflexivity | reflexivity | reflexivity | reflexivity].
  - apply (narration_phases_on_calm_traces
             [Submit clip; DecodeResolved 0; Click; Click; Ended 0; Click]);
      [simpl; intuition | reflexivity | reflexivity].
  - apply (narration_phases_on_calm_traces [Submit clip]);
      [simpl; intuition | right; reflexivity].
Defined.

End PlayerMore.
